(** * MCPLite: the message correlation and dispatch engine of [MCPClient]

    A shallow embedding of [src/mcplite.js].  The client object and the
    part of the JavaScript host it relies on (timers, promises, in-flight
    HTTP sends) form one [world]; every method of the class is a
    computation in a small state-and-exception monad over that world, and
    the host's event loop is a labelled step function.

    Conventions of the model:
    - JSON data is [value]; numbers are the integers (request ids and the
      clock are integers; fractions and the limits of double precision are
      outside the model).
    - An application listener registered with [on] is an opaque handle; the
      call [callback(data)] made by [emit] is recorded in the [log] and is
      assumed to return normally without re-entering the client.
    - Console output is recorded by its leading text.  The string a
      template literal builds is not kept; what is kept is whether the
      conversion of a substituted value to a string throws.
    - Each run of a [new Promise] executor in [sendRequest] is an
      activation, numbered by the host; the timer handle [timeoutId] and the
      [resolve]/[reject] pair of a closure are named by the number of the
      activation that created them. *)

From Stdlib Require Import ZArith.
From stdpp Require Import base gmap list strings pretty.

Open Scope string_scope.
Open Scope list_scope.
Open Scope Z_scope.

(** ** JSON values and JavaScript truthiness *)

#[local] Unset Elimination Schemes.
Inductive value : Type :=
| VUndefined
| VNull
| VBool (b : bool)
| VNum (n : Z)
| VStr (s : string)
| VArr (elems : list value)
| VObj (fields : list (string * value)).
#[local] Set Elimination Schemes.

(** [ToBoolean]: what [if (v)], [!v], [v && w] and [v || w] test. *)
Definition truthy (v : value) : bool :=
  match v with
  | VUndefined | VNull => false
  | VBool b => b
  | VNum n => negb (n =? 0)
  | VStr s => negb (String.eqb s "")
  | VArr _ | VObj _ => true
  end.

(** [a || b] on values. *)
Definition js_or (a b : value) : value := if truthy a then a else b.

(** Own property of an object literal, in insertion order. *)
Fixpoint field (name : string) (fields : list (string * value)) : value :=
  match fields with
  | [] => VUndefined
  | (k, v) :: rest => if String.eqb k name then v else field name rest
  end.

(** [o.name] for [o] that is not [null] or [undefined].  The names read by
    the client ([method], [id], [result], [error], [params], ...) are own
    properties of objects only: on a number, string, boolean or array the
    read gives [undefined]. *)
Definition prop (o : value) (name : string) : value :=
  match o with
  | VObj fields => field name fields
  | _ => VUndefined
  end.

Definition nullish (v : value) : bool :=
  match v with
  | VUndefined | VNull => true
  | _ => false
  end.

(** [v === "s"] as used by the [switch] statements. *)
Definition is_str (v : value) (s : string) : bool :=
  match v with
  | VStr t => String.eqb t s
  | _ => false
  end.

(** [ToString(v)] succeeds.  An object parsed from JSON has no callable
    own property, so an own property [toString] hides
    [Object.prototype.toString]; [valueOf], own or inherited, gives no
    primitive either, and the conversion throws a TypeError.  An array is
    converted by [join], which converts every element. *)
Fixpoint convertible (v : value) : bool :=
  match v with
  | VArr elems => forallb convertible elems
  | VObj fields => negb (existsb (λ kv, String.eqb (fst kv) "toString") fields)
  | _ => true
  end.

(** ** Errors, promise outcomes and the observable actions *)

Inductive error : Type :=
| TypeError (name : string)
    (* Cannot read properties of null/undefined (reading 'name') *)
| NotPrimitive
    (* TypeError: Cannot convert object to primitive value *)
| NotConnected
    (* Error("Not connected to MCP server") *)
| RequestTimeout (timeoutMs : Z)
    (* Error(`Request timeout after ${timeoutMs}ms`) *)
| RpcError (code message : value)
    (* Error(`Error ${response.error.code}: ${response.error.message}`) *)
| HttpError (status : Z) (statusText : string)
    (* Error(`HTTP error: ${response.status} ${response.statusText}`) *)
| NetworkError
    (* fetch itself rejected *)
| StreamError.
    (* the error event of the EventSource, or its constructor throwing *)

Inductive outcome : Type :=
| Resolved (v : value)
| Rejected (e : error).

(** What an [emit] passes to listeners: a JSON value or an error object. *)
Inductive payload : Type :=
| PVal (v : value)
| PErr (e : error).

Inductive level : Type := LLog | LWarn | LError.

(** The async operation whose continuation waits on a [sendRequest]
    promise, and the operations whose own promise is reported. *)
Inductive cont : Type := KInitialize | KListTools | KCallTool.
Inductive op : Type := OConnect | OListTools | OCallTool.

Inductive action : Type :=
| Console (lvl : level) (text : string)
    (* console.log / warn / error, by its leading text *)
| Call (cb : nat) (data : payload)
    (* emit invoked listener cb with data *)
| Fetch (endpoint : string) (body : value)
    (* fetch(endpoint, {method: 'POST', body: JSON.stringify(body)}) *)
| OpenStream (url : string)
    (* new EventSource(url) *)
| CloseStream
    (* eventSource.close() *)
| Stored (id : Z) (k : nat)
    (* sendRequest, activation k, stored its completion callback under id *)
| Handler (id : Z) (k : nat) (response : value)
    (* the completion callback stored under id, closure of activation k,
       was invoked with response *)
| Timeout (id : Z) (k : nat)
    (* the timer callback of activation k (request id) ran *)
| SendFailed (id : Z) (k : nat) (e : error)
    (* the catch callback of activation k (request id) ran with e *)
| Settle (o : op) (r : outcome).
    (* resolve/reject was called on the promise a public operation returned
       (on a promise, only the first such call has an effect) *)

(** ** The client object and its host *)

Record world : Type := {
  (* fields of MCPClient *)
  serverUrl : string;
  eventSource : option string;          (* null, or the stream opened on a url *)
  messageHandlers : gmap Z nat;         (* id -> completion closure *)
  nextRequestId : Z;
  connected : bool;
  eventListeners : gmap string (list nat);
  serverCapabilities : value;
  messageEndpoint : option string;      (* undefined until the endpoint event *)
  (* the host *)
  timers : gmap nat (Z * Z);            (* armed timers: activation -> (id, timeoutMs) *)
  promises : gmap nat outcome;          (* settled sendRequest promises *)
  inflight : gmap nat Z;                (* sends of sendRequest not yet completed *)
  awaiting : gmap nat cont;             (* await continuations not yet run *)
  nextAct : nat;
  log : list action
}.

(** [new MCPClient(serverUrl)] in a fresh host. *)
Definition init (url : string) : world :=
  {| serverUrl := url; eventSource := None; messageHandlers := ∅;
     nextRequestId := 1; connected := false; eventListeners := ∅;
     serverCapabilities := VNull; messageEndpoint := None;
     timers := ∅; promises := ∅; inflight := ∅; awaiting := ∅;
     nextAct := 0%nat; log := [] |}.

Definition set_eventSource (x : option string) (s : world) : world :=
  {| serverUrl := serverUrl s; eventSource := x;
     messageHandlers := messageHandlers s; nextRequestId := nextRequestId s;
     connected := connected s; eventListeners := eventListeners s;
     serverCapabilities := serverCapabilities s;
     messageEndpoint := messageEndpoint s; timers := timers s;
     promises := promises s; inflight := inflight s; awaiting := awaiting s;
     nextAct := nextAct s; log := log s |}.

Definition set_messageHandlers (x : gmap Z nat) (s : world) : world :=
  {| serverUrl := serverUrl s; eventSource := eventSource s;
     messageHandlers := x; nextRequestId := nextRequestId s;
     connected := connected s; eventListeners := eventListeners s;
     serverCapabilities := serverCapabilities s;
     messageEndpoint := messageEndpoint s; timers := timers s;
     promises := promises s; inflight := inflight s; awaiting := awaiting s;
     nextAct := nextAct s; log := log s |}.

Definition set_nextRequestId (x : Z) (s : world) : world :=
  {| serverUrl := serverUrl s; eventSource := eventSource s;
     messageHandlers := messageHandlers s; nextRequestId := x;
     connected := connected s; eventListeners := eventListeners s;
     serverCapabilities := serverCapabilities s;
     messageEndpoint := messageEndpoint s; timers := timers s;
     promises := promises s; inflight := inflight s; awaiting := awaiting s;
     nextAct := nextAct s; log := log s |}.

Definition set_connected (x : bool) (s : world) : world :=
  {| serverUrl := serverUrl s; eventSource := eventSource s;
     messageHandlers := messageHandlers s; nextRequestId := nextRequestId s;
     connected := x; eventListeners := eventListeners s;
     serverCapabilities := serverCapabilities s;
     messageEndpoint := messageEndpoint s; timers := timers s;
     promises := promises s; inflight := inflight s; awaiting := awaiting s;
     nextAct := nextAct s; log := log s |}.

Definition set_eventListeners (x : gmap string (list nat)) (s : world) : world :=
  {| serverUrl := serverUrl s; eventSource := eventSource s;
     messageHandlers := messageHandlers s; nextRequestId := nextRequestId s;
     connected := connected s; eventListeners := x;
     serverCapabilities := serverCapabilities s;
     messageEndpoint := messageEndpoint s; timers := timers s;
     promises := promises s; inflight := inflight s; awaiting := awaiting s;
     nextAct := nextAct s; log := log s |}.

Definition set_serverCapabilities (x : value) (s : world) : world :=
  {| serverUrl := serverUrl s; eventSource := eventSource s;
     messageHandlers := messageHandlers s; nextRequestId := nextRequestId s;
     connected := connected s; eventListeners := eventListeners s;
     serverCapabilities := x; messageEndpoint := messageEndpoint s;
     timers := timers s; promises := promises s; inflight := inflight s;
     awaiting := awaiting s; nextAct := nextAct s; log := log s |}.

Definition set_messageEndpoint (x : option string) (s : world) : world :=
  {| serverUrl := serverUrl s; eventSource := eventSource s;
     messageHandlers := messageHandlers s; nextRequestId := nextRequestId s;
     connected := connected s; eventListeners := eventListeners s;
     serverCapabilities := serverCapabilities s; messageEndpoint := x;
     timers := timers s; promises := promises s; inflight := inflight s;
     awaiting := awaiting s; nextAct := nextAct s; log := log s |}.

Definition set_timers (x : gmap nat (Z * Z)) (s : world) : world :=
  {| serverUrl := serverUrl s; eventSource := eventSource s;
     messageHandlers := messageHandlers s; nextRequestId := nextRequestId s;
     connected := connected s; eventListeners := eventListeners s;
     serverCapabilities := serverCapabilities s;
     messageEndpoint := messageEndpoint s; timers := x;
     promises := promises s; inflight := inflight s; awaiting := awaiting s;
     nextAct := nextAct s; log := log s |}.

Definition set_promises (x : gmap nat outcome) (s : world) : world :=
  {| serverUrl := serverUrl s; eventSource := eventSource s;
     messageHandlers := messageHandlers s; nextRequestId := nextRequestId s;
     connected := connected s; eventListeners := eventListeners s;
     serverCapabilities := serverCapabilities s;
     messageEndpoint := messageEndpoint s; timers := timers s; promises := x;
     inflight := inflight s; awaiting := awaiting s; nextAct := nextAct s;
     log := log s |}.

Definition set_inflight (x : gmap nat Z) (s : world) : world :=
  {| serverUrl := serverUrl s; eventSource := eventSource s;
     messageHandlers := messageHandlers s; nextRequestId := nextRequestId s;
     connected := connected s; eventListeners := eventListeners s;
     serverCapabilities := serverCapabilities s;
     messageEndpoint := messageEndpoint s; timers := timers s;
     promises := promises s; inflight := x; awaiting := awaiting s;
     nextAct := nextAct s; log := log s |}.

Definition set_awaiting (x : gmap nat cont) (s : world) : world :=
  {| serverUrl := serverUrl s; eventSource := eventSource s;
     messageHandlers := messageHandlers s; nextRequestId := nextRequestId s;
     connected := connected s; eventListeners := eventListeners s;
     serverCapabilities := serverCapabilities s;
     messageEndpoint := messageEndpoint s; timers := timers s;
     promises := promises s; inflight := inflight s; awaiting := x;
     nextAct := nextAct s; log := log s |}.

Definition set_nextAct (x : nat) (s : world) : world :=
  {| serverUrl := serverUrl s; eventSource := eventSource s;
     messageHandlers := messageHandlers s; nextRequestId := nextRequestId s;
     connected := connected s; eventListeners := eventListeners s;
     serverCapabilities := serverCapabilities s;
     messageEndpoint := messageEndpoint s; timers := timers s;
     promises := promises s; inflight := inflight s; awaiting := awaiting s;
     nextAct := x; log := log s |}.

Definition set_log (x : list action) (s : world) : world :=
  {| serverUrl := serverUrl s; eventSource := eventSource s;
     messageHandlers := messageHandlers s; nextRequestId := nextRequestId s;
     connected := connected s; eventListeners := eventListeners s;
     serverCapabilities := serverCapabilities s;
     messageEndpoint := messageEndpoint s; timers := timers s;
     promises := promises s; inflight := inflight s; awaiting := awaiting s;
     nextAct := nextAct s; log := x |}.
(** ** Computations: state and exceptions *)

Inductive completion (A : Type) : Type :=
| Normal (a : A)
| Throw (e : error).
Arguments Normal {A} a.
Arguments Throw {A} e.

(** A run of synchronous JavaScript code from a world: the world it leaves
    (also when it throws) and how it completed. *)
Definition M (A : Type) : Type := world → world * completion A.

Definition ret {A} (a : A) : M A := λ s, (s, Normal a).

Definition throw {A} (e : error) : M A := λ s, (s, Throw e).

Definition bind {A B} (m : M A) (f : A → M B) : M B :=
  λ s, match m s with
       | (s', Normal a) => f a s'
       | (s', Throw e) => (s', Throw e)
       end.

(** [try { m } catch (e) { h e }] *)
Definition catch {A} (m : M A) (h : error → M A) : M A :=
  λ s, match m s with
       | (s', Normal a) => (s', Normal a)
       | (s', Throw e) => h e s'
       end.

Definition get : M world := λ s, (s, Normal s).

Definition modify (f : world → world) : M unit := λ s, (f s, Normal tt).

Notation "'let*' x := m 'in' k" := (bind m (λ x, k))
  (at level 10, x pattern, m at level 100, k at level 200).

Definition tell (acts : list action) : M unit :=
  modify (λ s, set_log (log s ++ acts) s).

Definition console (lvl : level) (text : string) : M unit :=
  tell [Console lvl text].

(** [o.name] as an expression: a TypeError on [null] and [undefined]. *)
Definition read (o : value) (name : string) : M value :=
  if nullish o then throw (TypeError name) else ret (prop o name).

(** The substitution [${v}] of a template literal: [ToString(v)].  The
    text built is not kept, only whether the conversion throws. *)
Definition interpolate (v : value) : M unit :=
  if convertible v then ret tt else throw NotPrimitive.

(** [array.forEach(f)] *)
Definition forEach {A} (f : A → M unit) : list A → M unit :=
  fix go (l : list A) : M unit :=
    match l with
    | [] => ret tt
    | x :: rest => let* _ := f x in go rest
    end.

(** ** Event emitter *)

Definition on (event : string) (callback : nat) : M unit :=
  modify (λ s,
    set_eventListeners
      (<[event := default [] (eventListeners s !! event) ++ [callback]]>
         (eventListeners s)) s).

Definition emit (event : string) (data : payload) : M unit :=
  let* s := get in
  match eventListeners s !! event with
  | None => ret tt
  | Some callbacks => tell (map (λ callback, Call callback data) callbacks)
  end.

(** ** Host primitives used by sendRequest *)

(** [resolve]/[reject] of the promise of activation [k]: the first call
    settles it, later calls do nothing. *)
Definition settle (k : nat) (o : outcome) : M unit :=
  modify (λ s,
    match promises s !! k with
    | None => set_promises (<[k := o]> (promises s)) s
    | Some _ => s
    end).

Definition setTimeout (k : nat) (id timeoutMs : Z) : M unit :=
  modify (λ s, set_timers (<[k := (id, timeoutMs)]> (timers s)) s).

Definition clearTimeout (k : nat) : M unit :=
  modify (λ s, set_timers (delete k (timers s)) s).

(** [this.messageHandlers.get(key)] and [.delete(key)] for an arbitrary
    key: the map only ever holds number keys, and no other value is the
    same key as a number. *)
Definition handlers_get (key : value) (h : gmap Z nat) : option nat :=
  match key with
  | VNum n => h !! n
  | _ => None
  end.

Definition handlers_delete (key : value) (h : gmap Z nat) : gmap Z nat :=
  match key with
  | VNum n => delete n h
  | _ => h
  end.

(** ** Connection *)

Definition connect (opens : bool) : M unit :=
  if opens then
    let* s := get in
    let url := serverUrl s +:+ "/sse" in
    let* _ := tell [OpenStream url] in
    modify (set_eventSource (Some url))
  else
    let* _ := console LError "Failed to connect:" in
    let* _ := emit "error" (PErr StreamError) in
    tell [Settle OConnect (Rejected StreamError)].

Definition disconnect : M unit :=
  let* s := get in
  match eventSource s with
  | Some _ =>
      let* _ := tell [CloseStream] in
      let* _ := modify (set_eventSource None) in
      let* _ := modify (set_connected false) in
      let* _ := console LLog "Disconnected from MCP server" in
      emit "disconnect" (PVal VUndefined)
  | None => ret tt
  end.

(** ** Sending *)

(** [this.messageEndpoint || `${this.serverUrl}/message`] *)
Definition endpoint (s : world) : string :=
  match messageEndpoint s with
  | Some e => if String.eqb e "" then serverUrl s +:+ "/message" else e
  | None => serverUrl s +:+ "/message"
  end.

(** [sendMessage] up to its [await fetch(...)]. *)
Definition sendMessage (message : value) : M unit :=
  let* s := get in
  tell [Fetch (endpoint s) message].

Definition sendNotification (notification : value) : M unit :=
  sendMessage
    (VObj [("jsonrpc", VStr "2.0");
           ("method", prop notification "method");
           ("params", js_or (prop notification "params") (VObj []))]).

Definition jsonRpcRequest (id : Z) (request : value) : value :=
  VObj [("jsonrpc", VStr "2.0");
        ("id", VNum id);
        ("method", prop request "method");
        ("params", js_or (prop request "params") (VObj []))].

(** The executor of the promise [sendRequest] returns; the result is the
    activation that names the promise. *)
Definition sendRequest (request : value) (timeoutMs : Z) : M nat :=
  let* s := get in
  let k := nextAct s in
  let* _ := modify (set_nextAct (S k)) in
  let id := nextRequestId s in
  let* _ := modify (set_nextRequestId (id + 1)) in
  let* _ := setTimeout k id timeoutMs in
  let* _ := modify (λ s, set_messageHandlers (<[id := k]> (messageHandlers s)) s) in
  let* _ := tell [Stored id k] in
  let* _ := sendMessage (jsonRpcRequest id request) in
  let* _ := modify (λ s, set_inflight (<[k := id]> (inflight s)) s) in
  ret k.

(** The three callbacks [sendRequest] creates. *)

(** [() => { this.messageHandlers.delete(id); reject(...) }] *)
Definition timeoutCallback (k : nat) (id timeoutMs : Z) : M unit :=
  let* _ := tell [Timeout id k] in
  let* _ := modify (λ s, set_messageHandlers (delete id (messageHandlers s)) s) in
  settle k (Rejected (RequestTimeout timeoutMs)).

(** [(response) => { clearTimeout(timeoutId); ... }] *)
Definition completionCallback (k : nat) (response : value) : M unit :=
  let* _ := clearTimeout k in
  let* err := read response "error" in
  if truthy err then
    let* code := read err "code" in
    let* _ := interpolate code in
    let* message := read err "message" in
    let* _ := interpolate message in
    settle k (Rejected (RpcError code message))
  else
    let* result := read response "result" in
    settle k (Resolved result).

(** [error => { clearTimeout(timeoutId); this.messageHandlers.delete(id);
    reject(error) }], after the catch block of [sendMessage] logged. *)
Definition sendErrorCallback (k : nat) (id : Z) (e : error) : M unit :=
  let* _ := console LError "Error sending message:" in
  let* _ := tell [SendFailed id k e] in
  let* _ := clearTimeout k in
  let* _ := modify (λ s, set_messageHandlers (delete id (messageHandlers s)) s) in
  settle k (Rejected e).

(** ** Dispatch of inbound messages *)

Definition handleNotification (notification : value) : M unit :=
  let* method := read notification "method" in
  if is_str method "notifications/resources/list_changed" then
    let* _ := console LLog "Resource list changed" in
    emit "resourceListChanged" (PVal VUndefined)
  else if is_str method "notifications/resources/updated" then
    let* params := read notification "params" in
    let* uri := read params "uri" in
    let* _ := interpolate uri in
    let* _ := console LLog "Resource updated:" in
    emit "resourceUpdated" (PVal params)
  else if is_str method "notifications/tools/list_changed" then
    let* _ := console LLog "Tool list changed" in
    emit "toolListChanged" (PVal VUndefined)
  else if is_str method "notifications/prompts/list_changed" then
    let* _ := console LLog "Prompt list changed" in
    emit "promptListChanged" (PVal VUndefined)
  else if is_str method "notifications/progress" then
    let* params := read notification "params" in
    let* progress := read params "progress" in
    let* _ := interpolate progress in
    let* total := read params "total" in
    let* _ := interpolate (js_or total (VStr "?")) in
    let* message := read params "message" in
    let* _ := interpolate (js_or message (VStr "")) in
    let* _ := console LLog "Progress:" in
    let* token := read params "progressToken" in
    emit "progress"
      (PVal (VObj [("token", token); ("progress", progress);
                   ("total", total); ("message", message)]))
  else if is_str method "notifications/message" then
    let* params := read notification "params" in
    let* lvl := read params "level" in
    let* _ := interpolate lvl in
    let* data := read params "data" in
    let* _ := console LLog "Server message" in
    emit "message" (PVal (VObj [("level", lvl); ("data", data)]))
  else
    console LLog "Received notification:".

Definition handleServerRequest (request : value) : M unit :=
  let* method := read request "method" in
  if is_str method "ping" then
    let* id := read request "id" in
    sendMessage
      (VObj [("jsonrpc", VStr "2.0"); ("id", id); ("result", VObj [])])
  else if is_str method "sampling/createMessage" then
    let* _ := console LLog "Server requested LLM sampling:" in
    emit "samplingRequest" (PVal request)
  else if is_str method "roots/list" then
    let* _ := console LLog "Server requested roots list" in
    let* _ := emit "rootsListRequest" (PVal request) in
    let* id := read request "id" in
    sendMessage
      (VObj [("jsonrpc", VStr "2.0"); ("id", id);
             ("result", VObj [("roots", VArr [])])])
  else
    let* _ := interpolate method in
    let* _ := console LWarn "Unsupported server request method:" in
    let* id := read request "id" in
    sendMessage
      (VObj [("jsonrpc", VStr "2.0"); ("id", id);
             ("error", VObj [("code", VNum (-32601));
                             ("message", VStr "Method not found")])]).

(** The body of [handleIncomingMessage] after the [Array.isArray] test. *)
Definition dispatch (message : value) : M unit :=
  let* method := read message "method" in
  let* id := read message "id" in
  if truthy method && negb (truthy id) then
    handleNotification message
  else
    let* result := read message "result" in
    let* err := read message "error" in
    if truthy id && (truthy result || truthy err) then
      let* s := get in
      match handlers_get id (messageHandlers s) with
      | Some k =>
          let* _ :=
            tell [Handler (match id with VNum n => n | _ => 0 end) k message] in
          let* _ := completionCallback k message in
          modify (λ s,
            set_messageHandlers (handlers_delete id (messageHandlers s)) s)
      | None => console LWarn "Received response for unknown request ID:"
      end
    else if truthy method && truthy id then
      handleServerRequest message
    else
      console LWarn "Unhandled message:".

Fixpoint handleIncomingMessage (message : value) : M unit :=
  match message with
  | VArr elems => forEach handleIncomingMessage elems
  | _ => dispatch message
  end.

(** The listener of the stream's [message] event.  [data] is the result of
    [JSON.parse(event.data)], [None] when parsing throws. *)
Definition onMessage (data : option value) : M unit :=
  match data with
  | Some message =>
      catch (handleIncomingMessage message)
            (λ _, console LError "Error parsing message:")
  | None => console LError "Error parsing message:"
  end.

(** ** Protocol operations *)

Definition capabilities : value := VObj [("experimental", VObj [])].

Definition clientInfo : value :=
  VObj [("name", VStr "MCPLite"); ("version", VStr "0.1.0")].

(** [await p]: the rest of the async function runs when [p] is settled. *)
Definition await (k : nat) (c : cont) : M unit :=
  modify (λ s, set_awaiting (<[k := c]> (awaiting s)) s).

Definition initialize : M nat :=
  let* k :=
    sendRequest
      (VObj [("method", VStr "initialize");
             ("params", VObj [("protocolVersion", VStr "2025-03-26");
                              ("capabilities", capabilities);
                              ("clientInfo", clientInfo)])]) 30000 in
  let* _ := await k KInitialize in
  ret k.

Definition listTools : M nat :=
  let* s := get in
  if negb (connected s) then throw NotConnected
  else
    let* k := sendRequest (VObj [("method", VStr "tools/list")]) 30000 in
    let* _ := await k KListTools in
    ret k.

(** [Date.now().toString()] for the clock reading [now] (milliseconds). *)
Definition progressToken (now : Z) : value := VStr (pretty now).

(** [callTool(name, args = {}, withProgress = true)]; an omitted argument
    is [VUndefined].  [now] is what [Date.now()] returns if it is called. *)
Definition callTool (name args withProgress : value) (now : Z) : M nat :=
  let args := match args with VUndefined => VObj [] | _ => args end in
  let withProgress :=
    match withProgress with VUndefined => VBool true | _ => withProgress end in
  let* s := get in
  if negb (connected s) then throw NotConnected
  else
    let params := [("name", name); ("arguments", args)] in
    let params :=
      if truthy withProgress then
        params ++ [("_meta", VObj [("progressToken", progressToken now)])]
      else params in
    let* k :=
      sendRequest
        (VObj [("method", VStr "tools/call"); ("params", VObj params)]) 30000 in
    let* _ := await k KCallTool in
    ret k.

(** The code after an [await], run with the outcome of the awaited promise. *)
Definition resume (c : cont) (o : outcome) : M unit :=
  match c, o with
  | KInitialize, Resolved initializeResult =>
      catch
        (let* _ := read initializeResult "serverInfo" in
         let* _ := console LLog "Server info:" in
         let* caps := read initializeResult "capabilities" in
         let* _ := console LLog "Server capabilities:" in
         let* _ :=
           sendNotification
             (VObj [("method", VStr "notifications/initialized")]) in
         let* _ := modify (set_connected true) in
         (* connect's then-callback *)
         let* _ := modify (set_serverCapabilities caps) in
         let* _ := emit "connect" (PVal initializeResult) in
         tell [Settle OConnect (Resolved initializeResult)])
        (λ e,
           let* _ := emit "error" (PErr e) in
           tell [Settle OConnect (Rejected e)])
  | KInitialize, Rejected e =>
      let* _ := emit "error" (PErr e) in
      tell [Settle OConnect (Rejected e)]
  | KListTools, Resolved result =>
      catch
        (let* tools := read result "tools" in
         tell [Settle OListTools (Resolved tools)])
        (λ e, tell [Settle OListTools (Rejected e)])
  | KListTools, Rejected e => tell [Settle OListTools (Rejected e)]
  | KCallTool, o => tell [Settle OCallTool o]
  end.

(** ** The event loop *)

Inductive event : Type :=
| EOn (name : string) (callback : nat)      (* client.on(name, callback) *)
| EConnect (opens : bool)                   (* client.connect() *)
| EDisconnect                               (* client.disconnect() *)
| EListTools                                (* client.listTools() *)
| ECallTool (name args withProgress : value) (now : Z)
| EEndpoint (data : string)                 (* stream event 'endpoint' *)
| EMessage (data : option value)            (* stream event 'message' *)
| EStreamError                              (* eventSource.onerror *)
| ETimer (k : nat)                          (* an armed timer is due *)
| ESent (k : nat) (failure : option error)  (* a send of sendRequest ended *)
| EResume (k : nat).                        (* microtask after a settle *)

(** An async operation that throws before its first await returns a
    rejected promise. *)
Definition async (o : op) (m : M nat) : M unit :=
  catch (let* _ := m in ret tt) (λ e, tell [Settle o (Rejected e)]).

Definition handle (e : event) : M unit :=
  match e with
  | EOn name callback => on name callback
  | EConnect opens => connect opens
  | EDisconnect => disconnect
  | EListTools => async OListTools listTools
  | ECallTool name args withProgress now =>
      async OCallTool (callTool name args withProgress now)
  | EEndpoint data =>
      let* _ := modify (set_messageEndpoint (Some data)) in
      let* _ := console LLog "Message endpoint:" in
      let* _ := initialize in
      ret tt
  | EMessage data => onMessage data
  | EStreamError =>
      let* _ := console LError "SSE connection error:" in
      let* _ := emit "error" (PErr StreamError) in
      tell [Settle OConnect (Rejected StreamError)]
  | ETimer k =>
      let* s := get in
      match timers s !! k with
      | Some (id, timeoutMs) =>
          let* _ := clearTimeout k in
          timeoutCallback k id timeoutMs
      | None => ret tt
      end
  | ESent k failure =>
      let* s := get in
      match inflight s !! k with
      | Some id =>
          let* _ := modify (λ s, set_inflight (delete k (inflight s)) s) in
          match failure with
          | Some e => sendErrorCallback k id e
          | None => ret tt
          end
      | None => ret tt
      end
  | EResume k =>
      let* s := get in
      match awaiting s !! k, promises s !! k with
      | Some c, Some o =>
          let* _ := modify (λ s, set_awaiting (delete k (awaiting s)) s) in
          resume c o
      | _, _ => ret tt
      end
  end.

Definition step (e : event) (s : world) : world := fst (handle e s).

Definition run (es : list event) (s : world) : world := foldl (flip step) s es.

(** ** Reading the log *)

(** The messages POSTed to the server, oldest first. *)
Definition sent (l : list action) : list value :=
  omap (λ a, match a with Fetch _ body => Some body | _ => None end) l.

(** The listener invocations made by [emit]. *)
Definition surfaced (l : list action) : list (nat * payload) :=
  omap (λ a, match a with Call cb d => Some (cb, d) | _ => None end) l.

Definition is_handler (id : Z) (a : action) : bool :=
  match a with
  | Handler id' _ _ => bool_decide (id' = id)
  | _ => false
  end.

Definition is_timeout (id : Z) (a : action) : bool :=
  match a with
  | Timeout id' _ => bool_decide (id' = id)
  | _ => false
  end.

Definition is_send_failed (id : Z) (a : action) : bool :=
  match a with
  | SendFailed id' _ _ => bool_decide (id' = id)
  | _ => false
  end.

Fixpoint count (p : action → bool) (l : list action) : nat :=
  match l with
  | [] => 0%nat
  | a :: rest => ((if p a then 1 else 0) + count p rest)%nat
  end.

(** How often the completion callback of request [id] was invoked, and how
    often its timer callback ran. *)
Definition completions (id : Z) (s : world) : nat := count (is_handler id) (log s).
Definition timeouts (id : Z) (s : world) : nat := count (is_timeout id) (log s).
Definition send_failures (id : Z) (s : world) : nat :=
  count (is_send_failed id) (log s).

(** An action that records neither a registration nor the run of one of
    the three callbacks of [sendRequest]. *)
Definition benign (a : action) : bool :=
  match a with
  | Stored _ _ | Handler _ _ _ | Timeout _ _ | SendFailed _ _ _ => false
  | _ => true
  end.

(** ** Induction on values, through arrays *)

Definition is_array (v : value) : bool :=
  match v with
  | VArr _ => true
  | _ => false
  end.

Definition value_array_ind (P : value → Prop)
    (Hother : ∀ v, is_array v = false → P v)
    (Harr : ∀ elems, Forall P elems → P (VArr elems)) : ∀ v, P v :=
  fix go (v : value) : P v :=
    match v with
    | VArr elems =>
        Harr elems
          ((fix all (l : list value) : Forall P l :=
              match l with
              | [] => List.Forall_nil P
              | x :: rest => List.Forall_cons P x rest (go x) (all rest)
              end) elems)
    | VUndefined => Hother VUndefined eq_refl
    | VNull => Hother VNull eq_refl
    | VBool b => Hother (VBool b) eq_refl
    | VNum n => Hother (VNum n) eq_refl
    | VStr t => Hother (VStr t) eq_refl
    | VObj fs => Hother (VObj fs) eq_refl
    end.

(** ** Computations that respect a relation on worlds *)

(** Every run of [m] leaves a world related to the one it started from. *)
Definition respects (R : relation world) {A} (m : M A) : Prop :=
  ∀ s, R s (fst (m s)).

(** [s'] is [s] with actions satisfying [P] appended to its log, and no
    other change. *)
Definition logs (P : action → Prop) (s s' : world) : Prop :=
  ∃ acts, s' = set_log (log s ++ acts) s ∧ Forall P acts.

Definition is_fetch (a : action) : bool :=
  match a with
  | Fetch _ _ => true
  | _ => false
  end.

Definition is_call (a : action) : bool :=
  match a with
  | Call _ _ => true
  | _ => false
  end.

(** Console output and listener calls: what handling a notification may add. *)
Definition local_only (a : action) : Prop :=
  match a with
  | Console _ _ | Call _ _ => True
  | _ => False
  end.

(** The completion callback throws on [response]: the error member is
    truthy and its code or its message cannot be converted to a string. *)
Definition callback_throws (response : value) : bool :=
  let err := prop response "error" in
  truthy err &&
  negb (convertible (prop err "code") && convertible (prop err "message")).

(** What the completion callback settles its promise with, when it does
    not throw. *)
Definition outcome_of (response : value) : outcome :=
  let err := prop response "error" in
  if truthy err then Rejected (RpcError (prop err "code") (prop err "message"))
  else Resolved (prop response "result").

(** The world [sendRequest] leaves: a fresh activation and id, the timer
    armed, the completion callback stored, the request posted. *)
Definition requested (request : value) (timeoutMs : Z) (s : world) : world :=
  let k := nextAct s in
  let id := nextRequestId s in
  set_inflight (<[k := id]> (inflight s))
    (set_log (log s ++ [Stored id k;
                        Fetch (endpoint s) (jsonRpcRequest id request)])
       (set_messageHandlers (<[id := k]> (messageHandlers s))
          (set_timers (<[k := (id, timeoutMs)]> (timers s))
             (set_nextRequestId (id + 1) (set_nextAct (S k) s))))).

(** The world the completion of request [id] by [response] leaves when
    the callback does not throw: the callback (closure of activation [k])
    is invoked, cancels its timer and settles its promise, and the entry is
    deleted. *)
Definition completed (id : Z) (k : nat) (response : value) (s : world) : world :=
  set_messageHandlers (delete id (messageHandlers s))
    (fst (settle k (outcome_of response)
            (set_timers (delete k (timers s))
               (set_log (log s ++ [Handler id k response]) s)))).

(** The world a throwing completion callback leaves: it was invoked and
    cancelled its timer; the promise is not settled and, the exception
    leaving [handleIncomingMessage] before its [delete], the entry stays. *)
Definition aborted (id : Z) (k : nat) (response : value) (s : world) : world :=
  set_timers (delete k (timers s))
    (set_log (log s ++ [Handler id k response]) s).

(** The params [callTool] builds; [with_meta] is the test [if (withProgress)]. *)
Definition toolParams (name args : value) (with_meta : bool) (now : Z)
  : list (string * value) :=
  [("name", name);
   ("arguments", match args with VUndefined => VObj [] | _ => args end)] ++
  if with_meta then [("_meta", VObj [("progressToken", progressToken now)])]
  else [].

(** The tools/call request with id [id] and the given params. *)
Definition toolCall (id : Z) (params : list (string * value)) : value :=
  VObj [("jsonrpc", VStr "2.0"); ("id", VNum id);
        ("method", VStr "tools/call"); ("params", VObj params)].

(** ** Batches *)

(** The batch semantics in the words of the specification: each element is
    processed on its own and in array order, and an element whose
    processing fails does not prevent processing of the later ones. *)
Definition spec_batch (elems : list value) : M unit :=
  forEach (λ msg, catch (handleIncomingMessage msg) (λ _, ret tt)) elems.

(** The notification methods whose handler reads a property of [params]. *)
Definition reads_params (method : value) : bool :=
  is_str method "notifications/resources/updated" ||
  is_str method "notifications/progress" ||
  is_str method "notifications/message".

(** The messages free of the two faults that make a property read throw:
    not null, not a params-reading notification that lacks params, and,
    for an array, every element such.  A message that is not of this kind
    is never handled to the end; one of this kind can still throw where
    the code converts a value to a string ([harmless] excludes that). *)
Fixpoint completes (message : value) : bool :=
  match message with
  | VArr elems => forallb completes elems
  | VUndefined | VNull => false
  | _ =>
      let method := prop message "method" in
      negb (truthy method && negb (truthy (prop message "id")) &&
            reads_params method && nullish (prop message "params"))
  end.

(** The values a notification's handler converts to a string are
    convertible. *)
Definition printable_params (method params : value) : bool :=
  if is_str method "notifications/resources/updated" then
    convertible (prop params "uri")
  else if is_str method "notifications/progress" then
    convertible (prop params "progress") &&
    convertible (js_or (prop params "total") (VStr "?")) &&
    convertible (js_or (prop params "message") (VStr ""))
  else if is_str method "notifications/message" then
    convertible (prop params "level")
  else true.

(** The server request methods [handleServerRequest] has a case for. *)
Definition known_request (method : value) : bool :=
  is_str method "ping" || is_str method "sampling/createMessage" ||
  is_str method "roots/list".

(** A shape of message that is handled to the end in every world: free
    of the two faults above, and with a convertible value wherever the code
    that can run on the message builds a string from it (the params of a
    notification, the code and message of an error, the method of an
    unsupported server request).  The condition is sufficient, not
    necessary: a Response whose id is not in the table only draws a
    warning, whatever its error holds. *)
Fixpoint harmless (message : value) : bool :=
  match message with
  | VArr elems => forallb harmless elems
  | VUndefined | VNull => false
  | _ =>
      let method := prop message "method" in
      let id := prop message "id" in
      if truthy method && negb (truthy id) then
        negb (reads_params method && nullish (prop message "params")) &&
        printable_params method (prop message "params")
      else if truthy id &&
              (truthy (prop message "result") || truthy (prop message "error"))
      then negb (callback_throws message)
      else if truthy method && truthy id then
        known_request method || convertible method
      else true
  end.

(** [message] holds no Response (a message with a truthy id) on which a
    completion callback throws. *)
Fixpoint printable (message : value) : bool :=
  match message with
  | VArr elems => forallb printable elems
  | _ => negb (truthy (prop message "id") && callback_throws message)
  end.

Definition printable_event (e : event) : bool :=
  match e with
  | EMessage (Some message) => printable message
  | _ => true
  end.

(** ** Example worlds *)

Definition initializeResponse : value :=
  VObj [("jsonrpc", VStr "2.0"); ("id", VNum 1);
        ("result",
         VObj [("protocolVersion", VStr "2025-03-26");
               ("capabilities", VObj [("tools", VObj [])]);
               ("serverInfo", VObj [("name", VStr "server")])])].

(** connect(), the endpoint event, the initialize response and the
    continuation of [initialize]. *)
Definition handshake : list event :=
  [EConnect true; EEndpoint "/message?session=1";
   EMessage (Some initializeResponse); EResume 0%nat].

Definition ready : world := run handshake (init "http://localhost:8080").

(** A client with a progress listener whose initialize request (id 1,
    activation 0) is pending. *)
Definition initializing : world :=
  run [EOn "progress" 7%nat; EConnect true; EEndpoint "/message?session=1"]
      (init "http://localhost:8080").

Definition progressNotification : value :=
  VObj [("jsonrpc", VStr "2.0"); ("method", VStr "notifications/progress");
        ("params", VObj [("progressToken", VStr "1700000000000");
                         ("progress", VNum 1); ("total", VNum 2)])].

(** A progress notification that lacks its params. *)
Definition progressWithoutParams : value :=
  VObj [("jsonrpc", VStr "2.0"); ("method", VStr "notifications/progress")].

Definition exampleBatch : list value :=
  [VObj [("jsonrpc", VStr "2.0"); ("id", VNum 1);
         ("result", VObj [("capabilities", VObj [])])];
   VObj [("foo", VNum 1)];
   progressNotification].

(** ** Atomic changes of the correlation state *)

(** The world the timer callback of activation [k] leaves when the host
    runs the due timer. *)
Definition timed_out (k : nat) (id timeoutMs : Z) (s : world) : world :=
  fst ((let* _ := clearTimeout k in timeoutCallback k id timeoutMs) s).

(** The world the end of the send of activation [k] leaves. *)
Definition send_done (k : nat) (id : Z) (failure : option error) (s : world)
  : world :=
  fst ((let* _ := modify (λ s, set_inflight (delete k (inflight s)) s) in
        match failure with
        | Some e => sendErrorCallback k id e
        | None => ret tt
        end) s).

(** [s'] has the correlation state of [s] (table, counter, timers,
    promises, in-flight sends) and a log extended by benign actions. *)
Record frame (s s' : world) : Prop := {
  frame_handlers : messageHandlers s' = messageHandlers s;
  frame_nextRequestId : nextRequestId s' = nextRequestId s;
  frame_timers : timers s' = timers s;
  frame_promises : promises s' = promises s;
  frame_inflight : inflight s' = inflight s;
  frame_nextAct : nextAct s' = nextAct s;
  frame_log : ∃ acts, log s' = log s ++ acts ∧ Forall (λ a, benign a = true) acts
}.

(** The ways in which running client code changes the correlation state:
    not at all, by a [sendRequest], by a Response reaching the completion
    callback of a stored entry (which returns, or throws), by a timer, and
    by the end of a send.  [throwing] tells whether the throwing callback
    is among them. *)
Inductive change (throwing : bool) : world → world → Prop :=
| change_frame s s' :
    frame s s' → change throwing s s'
| change_request s request timeoutMs :
    change throwing s (requested request timeoutMs s)
| change_complete s id k response :
    messageHandlers s !! id = Some k →
    prop response "id" = VNum id →
    change throwing s (completed id k response s)
| change_abort s id k response :
    throwing = true →
    messageHandlers s !! id = Some k →
    prop response "id" = VNum id →
    change throwing s (aborted id k response s)
| change_timeout s k id timeoutMs :
    timers s !! k = Some (id, timeoutMs) →
    change throwing s (timed_out k id timeoutMs s)
| change_sent s k id failure :
    inflight s !! k = Some id →
    change throwing s (send_done k id failure s).

(** ** The correlation invariant *)


(** Request [id] is pending: its entry is in the table and the timer of
    the same activation is armed. *)
Definition pending (id : Z) (s : world) : Prop :=
  ∃ k timeoutMs,
    messageHandlers s !! id = Some k ∧ timers s !! k = Some (id, timeoutMs).

(** What holds of every world the event loop reaches.  With [throwing]
    false it is what holds as long as no completion callback has thrown:
    then every entry has its timer armed, and the completion callback and
    the timer callback of an id have run at most once between them. *)
Record inv (throwing : bool) (s : world) : Prop := {
  inv_stored_fresh : ∀ id k,
    Stored id k ∈ log s → id < nextRequestId s ∧ (k < nextAct s)%nat;
  inv_stored_inj : ∀ id k id' k',
    Stored id k ∈ log s → Stored id' k' ∈ log s → id = id' ↔ k = k';
  inv_handler_stored : ∀ id k,
    messageHandlers s !! id = Some k → Stored id k ∈ log s;
  inv_handler_timer : ∀ id k,
    messageHandlers s !! id = Some k →
    (∃ timeoutMs, timers s !! k = Some (id, timeoutMs)) ∨
    (throwing = true ∧ (1 ≤ completions id s)%nat);
  inv_timer_handler : ∀ k id timeoutMs,
    timers s !! k = Some (id, timeoutMs) →
    messageHandlers s !! id = Some k ∧ completions id s = 0%nat;
  inv_handler_unresolved : ∀ id k,
    messageHandlers s !! id = Some k →
    promises s !! k = None ∧ timeouts id s = 0%nat ∧
    send_failures id s = 0%nat;
  inv_inflight : ∀ k id,
    inflight s !! k = Some id → Stored id k ∈ log s ∧ send_failures id s = 0%nat;
  inv_promise_fresh : ∀ k o,
    promises s !! k = Some o → (k < nextAct s)%nat;
  inv_once : ∀ id,
    (timeouts id s ≤ 1)%nat ∧ (send_failures id s ≤ 1)%nat ∧
    (timeouts id s = 0 ∨ completions id s = 0)%nat ∧
    (throwing = false → (completions id s + timeouts id s ≤ 1)%nat);
  inv_callbacks : ∀ a, a ∈ log s →
    match a with
    | Handler id k response => Stored id k ∈ log s ∧ prop response "id" = VNum id
    | Timeout id k => Stored id k ∈ log s
    | SendFailed id k _ => Stored id k ∈ log s
    | _ => True
    end;
  inv_outcome : ∀ id k,
    Stored id k ∈ log s →
    (messageHandlers s !! id = Some k ∧ promises s !! k = None) ∨
    (messageHandlers s !! id = None ∧ is_Some (promises s !! k) ∧
     (1 ≤ completions id s + timeouts id s + send_failures id s)%nat)
}.

(** Any number of atomic changes. *)
Definition changes (throwing : bool) : relation world := rtc (change throwing).

(** The worlds the event loop can reach from a fresh client. *)
Definition reachable (s : world) : Prop := ∃ url es, s = run es (init url).

(** The progress tokens carried by the requests posted so far. *)
Definition progress_tokens (l : list action) : list value :=
  omap (λ body,
          let token := prop (prop (prop body "params") "_meta") "progressToken" in
          if nullish token then None else Some token)
       (sent l).

(** ** Further definitions *)

(** The ids under which [sendRequest] stored a completion callback, oldest
    first. *)
Definition stored_ids (l : list action) : list Z :=
  omap (λ a, match a with Stored id _ => Some id | _ => None end) l.

(** How many of the three callbacks of request [id] have run. *)
Definition fired (id : Z) (s : world) : nat :=
  (completions id s + timeouts id s + send_failures id s)%nat.

(** The send address is as before, and every message posted in between
    went to it. *)
Definition keeps_address (s s' : world) : Prop :=
  messageEndpoint s' = messageEndpoint s ∧ serverUrl s' = serverUrl s ∧
  ∃ acts,
    log s' = log s ++ acts ∧
    Forall (λ a, match a with Fetch e _ => e = endpoint s | _ => True end) acts.

Definition is_endpoint_event (e : event) : bool :=
  match e with
  | EEndpoint _ => true
  | _ => false
  end.

(** The session flag is not raised. *)
Definition not_connecting (s s' : world) : Prop :=
  connected s' = true → connected s = true.

(** Every listener registered in [s] is still registered in [s'], in the
    same order, possibly followed by new ones. *)
Definition listeners_kept (s s' : world) : Prop :=
  ∀ ev l, eventListeners s !! ev = Some l →
          ∃ l', eventListeners s' !! ev = Some (l ++ l').

(** A closed stream stays closed. *)
Definition stays_closed (s s' : world) : Prop :=
  eventSource s = None → eventSource s' = None.

Definition is_connect_event (e : event) : bool :=
  match e with
  | EConnect _ => true
  | _ => false
  end.

Definition is_resume_event (e : event) : bool :=
  match e with
  | EResume _ => true
  | _ => false
  end.

(** The initialize request and the initialized notification as posted. *)
Definition initializeRequest : value :=
  VObj [("jsonrpc", VStr "2.0"); ("id", VNum 1);
        ("method", VStr "initialize");
        ("params", VObj [("protocolVersion", VStr "2025-03-26");
                         ("capabilities", capabilities);
                         ("clientInfo", clientInfo)])].

Definition initializedNotification : value :=
  VObj [("jsonrpc", VStr "2.0");
        ("method", VStr "notifications/initialized");
        ("params", VObj [])].

(** The session flag is not lowered. *)
Definition stays_connected (s s' : world) : Prop :=
  connected s = true → connected s' = true.

(** Every armed timer was set for the default 30 seconds. *)
Definition default_timeouts (s : world) : Prop :=
  ∀ k id ms, timers s !! k = Some (id, ms) → ms = 30000.

Definition keeps_default_timeouts (s s' : world) : Prop :=
  default_timeouts s → default_timeouts s'.

(** * Properties *)

(** ** Rules for [respects] over a preorder *)

Section Respects.
Context (R : relation world) `{!PreOrder R}.

Lemma respects_ret {A} (a : A) : respects R (ret a).
Proof. intros s. reflexivity. Qed.

Lemma respects_throw {A} (e : error) : respects R (throw (A := A) e).
Proof. intros s. reflexivity. Qed.

Lemma respects_get : respects R get.
Proof. intros s. reflexivity. Qed.

Lemma respects_bind {A B} (m : M A) (f : A → M B) :
  respects R m → (∀ a, respects R (f a)) → respects R (bind m f).
Proof.
  intros Hm Hf s. unfold bind. specialize (Hm s).
  destruct (m s) as [s' [a|e]]; simpl in *; [|done].
  etrans; [exact Hm | apply Hf].
Qed.

Lemma respects_catch {A} (m : M A) (h : error → M A) :
  respects R m → (∀ e, respects R (h e)) → respects R (catch m h).
Proof.
  intros Hm Hh s. unfold catch. specialize (Hm s).
  destruct (m s) as [s' [a|e]]; simpl in *; [done|].
  etrans; [exact Hm | apply Hh].
Qed.

Lemma respects_read o name : respects R (read o name).
Proof.
  unfold read. destruct (nullish o); [apply respects_throw | apply respects_ret].
Qed.

Lemma respects_interpolate v : respects R (interpolate v).
Proof.
  unfold interpolate.
  destruct (convertible v); [apply respects_ret | apply respects_throw].
Qed.

Lemma respects_forEach {A} (f : A → M unit) (l : list A) :
  Forall (λ x, respects R (f x)) l → respects R (forEach f l).
Proof.
  induction 1 as [|x rest Hx _ IH]; simpl.
  - apply respects_ret.
  - apply respects_bind; [exact Hx | intros _; exact IH].
Qed.

(** A computation that first reads the world. *)
Lemma respects_with {A} (f : world → M A) :
  (∀ s0, respects R (f s0)) → respects R (let* s := get in f s).
Proof. intros H. apply respects_bind; [apply respects_get | exact H]. Qed.
End Respects.

(** ** Unfolding the monad *)

Ltac unfold_m :=
  unfold async, await, sendMessage, sendNotification, console, tell, emit,
    settle, setTimeout, clearTimeout, modify, get, ret, throw, catch, bind
    in *.

(** ** Precondition errors (C5) *)

(** C5.  While [connected] is false, [listTools] and [callTool] complete
    by throwing the "not connected" error (a rejected promise, since both
    are async functions) and leave the whole world as it was: nothing is
    sent (the log is unchanged), the correlation table is unchanged and
    [nextRequestId] is not advanced. *)
Theorem not_connected_fails_locally
    (s : world) (name args withProgress : value) (now : Z) :
  connected s = false →
  listTools s = (s, Throw NotConnected) ∧
  callTool name args withProgress now s = (s, Throw NotConnected).
Proof.
  intros Hc. unfold listTools, callTool. unfold_m. rewrite Hc. done.
Qed.

Lemma not_connected_fails_locally_witness :
  listTools (init "http://localhost:8080")
    = (init "http://localhost:8080", Throw NotConnected) ∧
  callTool (VStr "add") VUndefined VUndefined 0 (init "http://localhost:8080")
    = (init "http://localhost:8080", Throw NotConnected).
Proof.
  apply (not_connected_fails_locally (init "http://localhost:8080")).
  reflexivity.
Defined.

(** ** Disconnect (C7) *)

(** C7.  [disconnect()] leaves the stream closed and the session not
    connected; if a stream was open it closes it and invokes each listener
    of the disconnect event once.  From the world it leaves, a further
    [disconnect()] returns normally and changes nothing, the log included
    (no second disconnect event), however often it is repeated. *)
Theorem disconnect_idempotent (s : world) :
  let s1 := fst (disconnect s) in
  log s1 =
    log s ++
    match eventSource s with
    | Some _ =>
        [CloseStream; Console LLog "Disconnected from MCP server"] ++
        map (λ cb, Call cb (PVal VUndefined))
            (default [] (eventListeners s !! "disconnect"))
    | None => []
    end ∧
  eventSource s1 = None ∧
  disconnect s1 = (s1, Normal tt) ∧
  ∀ n, Nat.iter n (step EDisconnect) s1 = s1.
Proof.
  assert (Hclosed : ∀ w, eventSource w = None → disconnect w = (w, Normal tt)).
  { intros w Hw. unfold disconnect. unfold_m. by rewrite Hw. }
  assert (Hes : eventSource (fst (disconnect s)) = None).
  { unfold disconnect. unfold_m. simpl.
    destruct (eventSource s) eqn:E; simpl; [|done].
    by destruct (eventListeners s !! "disconnect"). }
  simpl. split_and!.
  - unfold disconnect. unfold_m. simpl.
    destruct (eventSource s) eqn:E; simpl; [|by rewrite app_nil_r].
    destruct (eventListeners s !! "disconnect"); simpl.
    + by rewrite <- !app_assoc.
    + by rewrite <- !app_assoc.
  - exact Hes.
  - by apply Hclosed.
  - induction n as [|n IH]; simpl; [done|].
    rewrite IH. unfold step. simpl. by rewrite Hclosed.
Qed.

(** ** Computations that only append to the log *)

Lemma set_log_id (s : world) : set_log (log s) s = s.
Proof. by destruct s. Qed.

Lemma set_log_set_log l1 l2 s : set_log l2 (set_log l1 s) = set_log l2 s.
Proof. done. Qed.

#[local] Instance logs_preorder (P : action → Prop) : PreOrder (logs P).
Proof.
  split.
  - intros s. exists []. split; [|done]. by rewrite app_nil_r, set_log_id.
  - intros s1 s2 s3 (a1 & -> & H1) (a2 & -> & H2). exists (a1 ++ a2). split.
    + simpl. by rewrite app_assoc.
    + by apply Forall_app.
Qed.

Lemma logs_tell (P : action → Prop) acts :
  Forall P acts → respects (logs P) (tell acts).
Proof. intros H s. by exists acts. Qed.

Lemma logs_console (P : action → Prop) lvl text :
  P (Console lvl text) → respects (logs P) (console lvl text).
Proof. intros H. apply logs_tell. by constructor. Qed.

Lemma logs_emit (P : action → Prop) ev data :
  (∀ cb, P (Call cb data)) → respects (logs P) (emit ev data).
Proof.
  intros H. unfold emit. apply respects_with; [apply _|]. intros s0.
  destruct (eventListeners s0 !! ev) as [cbs|].
  - apply logs_tell. apply Forall_map, Forall_true. intros cb. apply H.
  - apply respects_ret, _.
Qed.

Lemma logs_sendMessage (P : action → Prop) message :
  (∀ e, P (Fetch e message)) → respects (logs P) (sendMessage message).
Proof.
  intros H. unfold sendMessage. apply respects_with; [apply _|]. intros s0.
  apply logs_tell. by constructor.
Qed.

Ltac logs_step :=
  lazymatch goal with
  | |- respects _ (read _ _) => apply respects_read; apply _
  | |- respects _ (interpolate _) => apply respects_interpolate; apply _
  | |- respects _ (console _ _) => apply logs_console; done
  | |- respects _ (emit _ _) => apply logs_emit; done
  | |- respects _ (sendMessage _) => apply logs_sendMessage; done
  | |- respects _ (ret _) => apply respects_ret; apply _
  | |- respects _ (bind _ _) => apply respects_bind; [apply _ | | intros ?]
  end.

Lemma handleNotification_logs notification :
  respects (logs local_only) (handleNotification notification).
Proof.
  unfold handleNotification.
  apply respects_bind; [apply _ | apply respects_read, _ | intros method].
  repeat (case_match; [repeat logs_step|]).
  repeat logs_step.
Qed.

Lemma logs_sent_unchanged (P : action → Prop) s s' :
  (∀ a, P a → is_fetch a = false) → logs P s s' → sent (log s') = sent (log s).
Proof.
  intros HP (acts & -> & Hacts). simpl. unfold sent. rewrite omap_app.
  rewrite <- (app_nil_r (omap _ (log s))) at 2. f_equal.
  induction Hacts as [|a acts Ha _ IH]; [done|]. simpl.
  specialize (HP a Ha). destruct a; simpl in *; done.
Qed.

Lemma logs_state_unchanged (P : action → Prop) s s' :
  logs P s s' →
  messageHandlers s' = messageHandlers s ∧ nextRequestId s' = nextRequestId s ∧
  timers s' = timers s ∧ promises s' = promises s ∧
  connected s' = connected s ∧ eventSource s' = eventSource s.
Proof. by intros (acts & -> & _). Qed.

(** ** Classification of a single inbound object *)

(** What [dispatch] does with an object, by the four tests of the source. *)
Lemma dispatch_object (fields : list (string * value)) (s : world) :
  let m := VObj fields in
  let method := field "method" fields in
  let id := field "id" fields in
  dispatch m s =
    if truthy method && negb (truthy id) then handleNotification m s
    else if truthy id &&
            (truthy (field "result" fields) || truthy (field "error" fields))
    then
      match handlers_get id (messageHandlers s) with
      | Some k =>
          (let* _ :=
             tell [Handler (match id with VNum n => n | _ => 0 end) k m] in
           let* _ := completionCallback k m in
           modify (λ s,
             set_messageHandlers (handlers_delete id (messageHandlers s)) s)) s
      | None => console LWarn "Received response for unknown request ID:" s
      end
    else if truthy method && truthy id then handleServerRequest m s
    else console LWarn "Unhandled message:" s.
Proof.
  simpl. unfold dispatch, read. simpl.
  unfold bind at 1 2 3 4, ret, get.
  destruct (truthy (field "method" fields)), (truthy (field "id" fields)),
    (truthy (field "result" fields)), (truthy (field "error" fields));
    simpl; try done;
    unfold bind at 1; simpl;
    by destruct (handlers_get (field "id" fields) (messageHandlers s)).
Qed.

(** ** Falsy ids (C9) *)

(** C9.  An inbound object whose [id] is falsy (0, the empty string, null,
    false, or absent) never causes a message to be sent to the server, and
    when its [method] is present (truthy) it is handled exactly as
    [handleNotification] handles it, never by [handleServerRequest]. *)
Theorem falsy_id_dispatched_as_notification
    (fields : list (string * value)) (s : world) :
  truthy (field "id" fields) = false →
  (truthy (field "method" fields) = true →
   handleIncomingMessage (VObj fields) s = handleNotification (VObj fields) s) ∧
  sent (log (fst (handleIncomingMessage (VObj fields) s))) = sent (log s).
Proof.
  intros Hid. simpl. rewrite dispatch_object. simpl. rewrite Hid. simpl.
  rewrite andb_true_r, andb_false_r.
  destruct (truthy (field "method" fields)); simpl.
  - split; [done|].
    eapply logs_sent_unchanged; [|apply handleNotification_logs].
    by intros [].
  - split; [done|]. unfold sent. simpl. rewrite omap_app. simpl.
    by rewrite app_nil_r.
Qed.

Lemma falsy_id_dispatched_as_notification_witness :
  let ping0 :=
    [("jsonrpc", VStr "2.0"); ("id", VNum 0); ("method", VStr "ping")] in
  (truthy (field "method" ping0) = true →
   handleIncomingMessage (VObj ping0) (init "http://localhost:8080")
   = handleNotification (VObj ping0) (init "http://localhost:8080")) ∧
  sent (log (fst (handleIncomingMessage (VObj ping0)
                    (init "http://localhost:8080")))) = [].
Proof.
  simpl.
  apply (falsy_id_dispatched_as_notification
           [("jsonrpc", VStr "2.0"); ("id", VNum 0); ("method", VStr "ping")]
           (init "http://localhost:8080")).
  reflexivity.
Defined.

(** ** Server-initiated requests (C6) *)

(** X26.  A ping whose id is truthy is answered with one POST of
    [{jsonrpc: "2.0", id, result: {}}] and nothing else happens. *)
Lemma ping_with_truthy_id_is_answered (fields : list (string * value)) (s : world) :
  is_str (field "method" fields) "ping" = true →
  truthy (field "id" fields) = true →
  truthy (field "result" fields) = false →
  truthy (field "error" fields) = false →
  handleIncomingMessage (VObj fields) s =
    (set_log
       (log s ++
        [Fetch (endpoint s)
           (VObj [("jsonrpc", VStr "2.0"); ("id", field "id" fields);
                  ("result", VObj [])])]) s,
     Normal tt).
Proof.
  intros Hm Hid Hr He. simpl. rewrite dispatch_object. simpl.
  assert (truthy (field "method" fields) = true) as Ht.
  { destruct (field "method" fields); try done. simpl in *.
    destruct (String.eqb_spec s0 "ping"); [by subst|done]. }
  rewrite Ht, Hid, Hr, He. simpl.
  unfold handleServerRequest, read. simpl. unfold bind at 1, ret. simpl.
  by rewrite Hm.
Qed.

(** C6 (the code departs from the claim).  A ping request whose id is 0 is
    taken for a notification: the client only writes a log line; no reply
    is sent and the world is otherwise unchanged. *)
Theorem ping_with_id_zero_gets_no_reply (s : world) :
  handleIncomingMessage
    (VObj [("jsonrpc", VStr "2.0"); ("id", VNum 0); ("method", VStr "ping")]) s
  = (set_log (log s ++ [Console LLog "Received notification:"]) s, Normal tt).
Proof. reflexivity. Qed.

(** ** Responses (C3) *)

Lemma sendRequest_run request timeoutMs s :
  sendRequest request timeoutMs s = (requested request timeoutMs s, Normal (nextAct s)).
Proof.
  unfold sendRequest, requested. unfold_m. simpl. by rewrite <- app_assoc.
Qed.

Lemma completionCallback_run k fields s :
  completionCallback k (VObj fields) s =
    if callback_throws (VObj fields)
    then (set_timers (delete k (timers s)) s, Throw NotPrimitive)
    else settle k (outcome_of (VObj fields))
           (set_timers (delete k (timers s)) s).
Proof.
  unfold completionCallback, outcome_of, callback_throws, read, interpolate.
  simpl. unfold clearTimeout, modify, bind at 1 2, ret. simpl.
  destruct (truthy (field "error" fields)) eqn:E; [|done].
  assert (nullish (field "error" fields) = false) as ->
    by (by destruct (field "error" fields)).
  simpl. unfold bind, ret, throw.
  by destruct (convertible (prop (field "error" fields) "code")),
       (convertible (prop (field "error" fields) "message")).
Qed.

Lemma completion_run (fields : list (string * value)) id k s :
  callback_throws (VObj fields) = false →
  (let* _ := tell [Handler id k (VObj fields)] in
   let* _ := completionCallback k (VObj fields) in
   modify (λ s,
     set_messageHandlers (handlers_delete (VNum id) (messageHandlers s)) s)) s
  = (completed id k (VObj fields) s, Normal tt).
Proof.
  intros Hc. unfold bind at 1, tell, modify at 1. simpl.
  unfold bind at 1. rewrite completionCallback_run, Hc. unfold completed.
  unfold settle, modify. simpl.
  by destruct (promises s !! k).
Qed.

Lemma abort_run (fields : list (string * value)) id k s :
  callback_throws (VObj fields) = true →
  (let* _ := tell [Handler id k (VObj fields)] in
   let* _ := completionCallback k (VObj fields) in
   modify (λ s,
     set_messageHandlers (handlers_delete (VNum id) (messageHandlers s)) s)) s
  = (aborted id k (VObj fields) s, Throw NotPrimitive).
Proof.
  intros Hc. unfold bind at 1, tell, modify at 1. simpl.
  unfold bind at 1. by rewrite completionCallback_run, Hc.
Qed.

(** A message with a truthy [result] or [error] whose id is that of a
    stored entry invokes that entry's completion callback with the
    message; if the callback returns, the entry is removed. *)
Lemma response_completes (fields : list (string * value)) (s : world) id k :
  field "id" fields = VNum id →
  truthy (field "result" fields) || truthy (field "error" fields) = true →
  messageHandlers s !! id = Some k →
  id ≠ 0 →
  callback_throws (VObj fields) = false →
  handleIncomingMessage (VObj fields) s = (completed id k (VObj fields) s, Normal tt).
Proof.
  intros Hid Hre Hk Hnz Hc. simpl. rewrite dispatch_object. simpl.
  rewrite Hid, Hre. simpl. rewrite Hk.
  assert (negb (id =? 0) = true) as -> by (apply negb_true_iff; lia).
  rewrite andb_false_r. simpl. by apply completion_run.
Qed.

(** If the callback throws, the exception leaves [handleIncomingMessage]
    and the entry stays. *)
Lemma response_aborts (fields : list (string * value)) (s : world) id k :
  field "id" fields = VNum id →
  truthy (field "result" fields) || truthy (field "error" fields) = true →
  messageHandlers s !! id = Some k →
  id ≠ 0 →
  callback_throws (VObj fields) = true →
  handleIncomingMessage (VObj fields) s =
    (aborted id k (VObj fields) s, Throw NotPrimitive).
Proof.
  intros Hid Hre Hk Hnz Hc. simpl. rewrite dispatch_object. simpl.
  rewrite Hid, Hre. simpl. rewrite Hk.
  assert (negb (id =? 0) = true) as -> by (apply negb_true_iff; lia).
  rewrite andb_false_r. simpl. by apply abort_run.
Qed.

(** C3 (the code departs from the claim).  A message with an id and a
    [result] field whose value is null, 0, false or the empty string is not
    classified as a Response: whatever the id, and whether or not a request
    with that id is pending, the client only warns "Unhandled message" and
    leaves the correlation table, the timers and the promises untouched, so
    the pending call is not completed by it. *)
Theorem falsy_result_is_not_a_response (s : world) (id : Z) :
  let response result :=
    VObj [("jsonrpc", VStr "2.0"); ("id", VNum id); ("result", result)] in
  let unhandled :=
    (set_log (log s ++ [Console LWarn "Unhandled message:"]) s, Normal tt) in
  handleIncomingMessage (response VNull) s = unhandled ∧
  handleIncomingMessage (response (VNum 0)) s = unhandled ∧
  handleIncomingMessage (response (VBool false)) s = unhandled ∧
  handleIncomingMessage (response (VStr "")) s = unhandled.
Proof.
  simpl. split_and!; rewrite dispatch_object; simpl;
    by destruct (negb (id =? 0)).
Qed.

(** ** callTool (C8) *)

Lemma sent_app l1 l2 : sent (l1 ++ l2) = sent l1 ++ sent l2.
Proof. apply omap_app. Qed.

Lemma callTool_run name args withProgress now s :
  connected s = true →
  let with_meta :=
    truthy (match withProgress with VUndefined => VBool true | w => w end) in
  callTool name args withProgress now s =
    (set_awaiting (<[nextAct s := KCallTool]> (awaiting s))
       (requested
          (VObj [("method", VStr "tools/call");
                 ("params", VObj (toolParams name args with_meta now))])
          30000 s),
     Normal (nextAct s)).
Proof.
  intros Hc. simpl. unfold callTool, bind at 1, get. rewrite Hc. simpl.
  unfold bind at 1. unfold toolParams.
  destruct (truthy match withProgress with VUndefined => VBool true | _ => withProgress end);
    by rewrite sendRequest_run.
Qed.

Lemma callTool_sent name args withProgress now s :
  connected s = true →
  sent (log (fst (callTool name args withProgress now s))) =
    sent (log s) ++
    [toolCall (nextRequestId s)
       (toolParams name args
          (truthy (match withProgress with VUndefined => VBool true | w => w end))
          now)].
Proof.
  intros Hc. rewrite callTool_run by done. simpl. by rewrite sent_app.
Qed.

(** C8.  On a connected client, [callTool(name, args)] with [withProgress]
    omitted behaves as [callTool(name, args, true)]: the tools/call request
    it posts has params [{name, arguments, _meta: {progressToken}}].  With
    [false] passed explicitly the params are [{name, arguments}] only. *)
Theorem callTool_withProgress_defaults_to_true
    (s : world) (name args : value) (now : Z) :
  connected s = true →
  let arguments := match args with VUndefined => VObj [] | _ => args end in
  callTool name args VUndefined now s = callTool name args (VBool true) now s ∧
  sent (log (fst (callTool name args VUndefined now s))) =
    sent (log s) ++
    [VObj [("jsonrpc", VStr "2.0"); ("id", VNum (nextRequestId s));
           ("method", VStr "tools/call");
           ("params",
            VObj [("name", name); ("arguments", arguments);
                  ("_meta", VObj [("progressToken", VStr (pretty now))])])]] ∧
  sent (log (fst (callTool name args (VBool false) now s))) =
    sent (log s) ++
    [VObj [("jsonrpc", VStr "2.0"); ("id", VNum (nextRequestId s));
           ("method", VStr "tools/call");
           ("params", VObj [("name", name); ("arguments", arguments)])]].
Proof.
  intros Hc. simpl. split_and!.
  - done.
  - by rewrite callTool_sent.
  - by rewrite callTool_sent.
Qed.

Lemma ready_connected : connected ready = true.
Proof. vm_compute. reflexivity. Qed.

Lemma callTool_withProgress_defaults_to_true_witness :
  callTool (VStr "add") (VObj [("a", VNum 33); ("b", VNum 55)]) VUndefined
    1700000000000 ready
  = callTool (VStr "add") (VObj [("a", VNum 33); ("b", VNum 55)]) (VBool true)
      1700000000000 ready.
Proof.
  exact (proj1 (callTool_withProgress_defaults_to_true ready (VStr "add")
                  (VObj [("a", VNum 33); ("b", VNum 55)]) 1700000000000
                  ready_connected)).
Defined.

(** ** Computations that return normally *)

Lemma emit_returns ev data s : snd (emit ev data s) = Normal tt.
Proof.
  unfold emit, bind, get, tell, modify, ret. simpl.
  by destruct (eventListeners s !! ev).
Qed.

Lemma emit_run ev data s :
  emit ev data s =
    (set_log (log s ++ map (λ cb, Call cb data)
                         (default [] (eventListeners s !! ev))) s,
     Normal tt).
Proof.
  unfold emit, bind, get, tell, modify, ret. simpl.
  destruct (eventListeners s !! ev); simpl; [done|].
  by rewrite app_nil_r, set_log_id.
Qed.

Lemma is_str_truthy v t : is_str v t = true → t ≠ "" → truthy v = true.
Proof.
  destruct v; simpl; try done. intros H Hne.
  destruct (String.eqb_spec s t); [subst|done].
  destruct (String.eqb_spec t ""); done.
Qed.

(** [handleNotification] returns when the params it reads are there and
    the values it converts to a string are convertible. *)
Lemma handleNotification_returns (fields : list (string * value)) (s : world) :
  reads_params (field "method" fields) && nullish (field "params" fields) = false →
  printable_params (field "method" fields) (field "params" fields) = true →
  snd (handleNotification (VObj fields) s) = Normal tt.
Proof.
  unfold handleNotification, reads_params, printable_params, read, interpolate.
  simpl. change (bind (ret ?a) ?f) with (f a). simpl.
  destruct (field "method" fields) as [| |b|n|t|l|fs]; simpl;
    try (intros _ _; unfold console, tell, modify; done).
  repeat
    (match goal with
     | |- context [String.eqb t ?lit] =>
         destruct (String.eqb_spec t lit) as [->|?]; simpl
     end);
    intros Hp Hc; rewrite ?andb_true_iff in Hc; destruct_and?;
    unfold emit, console, tell, modify, get, throw, ret, bind; simpl;
    rewrite ?Hp; simpl;
    repeat (match goal with
            | H : convertible _ = true |- _ => rewrite H; clear H; simpl
            end);
    repeat case_match; simpl in *; done.
Qed.

(** It throws a TypeError when the params it reads are missing. *)
Lemma handleNotification_throws (fields : list (string * value)) (s : world) :
  reads_params (field "method" fields) && nullish (field "params" fields) = true →
  ∃ name, handleNotification (VObj fields) s = (s, Throw (TypeError name)).
Proof.
  unfold handleNotification, reads_params, read. simpl.
  change (bind (ret ?a) ?f) with (f a). simpl.
  destruct (field "method" fields) as [| |b|n|t|l|fs]; simpl; try done.
  repeat
    (match goal with
     | |- context [String.eqb t ?lit] =>
         destruct (String.eqb_spec t lit) as [->|?]; simpl
     end);
    intros Hp; try done; unfold throw, bind, ret; simpl; rewrite Hp; simpl;
    eauto.
Qed.

(** [handleServerRequest] returns on the three methods it has a case for
    and on every other method that can be converted to a string. *)
Lemma handleServerRequest_returns (fields : list (string * value)) (s : world) :
  known_request (field "method" fields) || convertible (field "method" fields)
    = true →
  snd (handleServerRequest (VObj fields) s) = Normal tt.
Proof.
  unfold handleServerRequest, known_request, read, interpolate. simpl.
  change (bind (ret ?a) ?f) with (f a). simpl.
  destruct (is_str (field "method" fields) "ping");
    [intros _; by unfold sendMessage, tell, modify, get, ret, bind|].
  destruct (is_str (field "method" fields) "sampling/createMessage");
    [intros _; unfold bind at 1; apply emit_returns|].
  destruct (is_str (field "method" fields) "roots/list"); simpl.
  - intros _.
    unfold sendMessage, emit, console, tell, modify, get, ret, bind; simpl.
    by repeat case_match.
  - intros ->. by unfold sendMessage, console, tell, modify, get, ret, bind.
Qed.

Lemma completed_returns k fields id s :
  callback_throws (VObj fields) = false →
  snd ((let* _ := tell [Handler id k (VObj fields)] in
        let* _ := completionCallback k (VObj fields) in
        modify (λ s,
          set_messageHandlers
            (handlers_delete (field "id" fields) (messageHandlers s)) s)) s)
  = Normal tt.
Proof.
  intros Hc. unfold bind at 1, tell, modify at 1. simpl. unfold bind at 1.
  rewrite completionCallback_run, Hc. by unfold settle, modify.
Qed.

(** A [harmless] message is handled to the end, whatever the world. *)
Lemma harmless_returns (message : value) :
  harmless message = true → ∀ s, snd (handleIncomingMessage message s) = Normal tt.
Proof.
  induction message as [v Hv | elems IH] using value_array_ind.
  - intros H s. destruct v as [| |b|n|t|l|fields]; try done.
    simpl. rewrite dispatch_object. simpl. simpl in H.
    destruct (truthy (field "method" fields)) eqn:Hm,
             (truthy (field "id" fields)) eqn:Hi; simpl in *.
    + destruct (truthy (field "result" fields) || truthy (field "error" fields)).
      * destruct (handlers_get _ _); [|done].
        apply completed_returns. by apply negb_true_iff.
      * by apply handleServerRequest_returns.
    + apply andb_true_iff in H as [H1 H2].
      apply handleNotification_returns; [by apply negb_true_iff | done].
    + destruct (truthy (field "result" fields) || truthy (field "error" fields)).
      * destruct (handlers_get _ _); [|done].
        apply completed_returns. by apply negb_true_iff.
      * done.
    + done.
  - simpl. induction IH as [|x rest Hx _ IHrest]; intros H s; simpl; [done|].
    simpl in H. apply andb_true_iff in H as [H1 H2].
    unfold bind at 1. specialize (Hx H1 s).
    destruct (handleIncomingMessage x s) as [s' [[]|e]] eqn:E; simpl in *;
      [|done].
    by apply IHrest.
Qed.

(** A message that does not satisfy [completes] is never handled to the
    end: a property read throws a TypeError, unless an element before it in
    a batch has thrown already. *)
Lemma not_completes_throws (message : value) :
  completes message = false →
  ∀ s, ∃ e, snd (handleIncomingMessage message s) = Throw e.
Proof.
  induction message as [v Hv | elems IH] using value_array_ind.
  - intros H s. destruct v as [| |b|n|t|l|fields]; try done;
      try (by eexists).
    simpl in H. apply negb_false_iff in H.
    apply andb_true_iff in H as [H Hn]. apply andb_true_iff in H as [H Hr].
    apply andb_true_iff in H as [Hm Hi]. apply negb_true_iff in Hi.
    simpl. rewrite dispatch_object. simpl. rewrite Hm, Hi. simpl.
    destruct (handleNotification_throws fields s) as [name ->];
      [by rewrite Hr, Hn | by eexists].
  - simpl. induction IH as [|x rest Hx _ IHrest]; intros H s; simpl in *;
      [done|].
    unfold bind at 1.
    destruct (handleIncomingMessage x s) as [s' [[]|e]] eqn:E; simpl;
      [|by eexists].
    apply andb_false_iff in H as [H|H].
    + destruct (Hx H s) as [e He]. by rewrite E in He.
    + by apply IHrest.
Qed.

Lemma handleIncomingMessage_batch_cons (x : value) (rest : list value) :
  handleIncomingMessage (VArr (x :: rest)) =
    let* _ := handleIncomingMessage x in handleIncomingMessage (VArr rest).
Proof. reflexivity. Qed.

(** ** Batches (C2) *)

(** The batch [[Response(id=1), object of no recognised shape, progress
    notification]], received while request 1 is pending, is handled to the
    end and in order: the completion callback of request 1 is invoked and
    its entry removed, the second element is discarded with a warning, and
    the progress event reaches its listener. *)
Lemma example_batch_handled_in_order :
  let s := fst (handleIncomingMessage (VArr exampleBatch) initializing) in
  handleIncomingMessage (VArr exampleBatch) initializing = (s, Normal tt) ∧
  messageHandlers s !! 1 = None ∧
  drop 4 (log s) =
    [Handler 1 0 (VObj [("jsonrpc", VStr "2.0"); ("id", VNum 1);
                        ("result", VObj [("capabilities", VObj [])])]);
     Console LWarn "Unhandled message:";
     Console LLog "Progress:";
     Call 7 (PVal (VObj [("token", VStr "1700000000000"); ("progress", VNum 1);
                         ("total", VNum 2); ("message", VUndefined)]))].
Proof. split_and!; vm_compute; reflexivity. Qed.


(** C2 (the code departs from the claim).  In a batch whose first element
    is a progress notification without params (or null), handling that
    element throws a TypeError out of [forEach]: the well-formed progress
    notification after it is never dispatched (no listener is called),
    whereas the specification's batch semantics dispatches it.  The
    message listener catches the error and only logs it. *)
Theorem malformed_element_aborts_batch :
  let batch := [progressWithoutParams; progressNotification] in
  handleIncomingMessage (VArr batch) initializing
    = (initializing, Throw (TypeError "progress")) ∧
  handleIncomingMessage (VArr [VNull; progressNotification]) initializing
    = (initializing, Throw (TypeError "method")) ∧
  surfaced (log (step (EMessage (Some (VArr batch))) initializing)) = [] ∧
  surfaced (log (fst (spec_batch batch initializing)))
    = [(7%nat,
        PVal (VObj [("token", VStr "1700000000000"); ("progress", VNum 1);
                    ("total", VNum 2); ("message", VUndefined)]))] ∧
  handleIncomingMessage (VArr batch) initializing ≠ spec_batch batch initializing.
Proof.
  simpl. split_and!; try reflexivity. by intros [=].
Qed.

(** ** The correlation invariant holds in every reachable world *)

Lemma count_app p l1 l2 : count p (l1 ++ l2) = (count p l1 + count p l2)%nat.
Proof. induction l1 as [|a l1 IH]; simpl; [done|]. rewrite IH. lia. Qed.

Lemma count_benign p acts :
  (∀ a, p a = true → benign a = false) →
  Forall (λ a, benign a = true) acts → count p acts = 0%nat.
Proof.
  intros Hp. induction 1 as [|a acts Ha _ IH]; simpl; [done|].
  rewrite IH. destruct (p a) eqn:E; [|done]. apply Hp in E. congruence.
Qed.

Lemma is_handler_not_benign id a : is_handler id a = true → benign a = false.
Proof. by destruct a. Qed.
Lemma is_timeout_not_benign id a : is_timeout id a = true → benign a = false.
Proof. by destruct a. Qed.
Lemma is_send_failed_not_benign id a : is_send_failed id a = true → benign a = false.
Proof. by destruct a. Qed.

Lemma frame_counts s s' id :
  frame s s' →
  completions id s' = completions id s ∧ timeouts id s' = timeouts id s ∧
  send_failures id s' = send_failures id s.
Proof.
  intros [_ _ _ _ _ _ (acts & Hl & Hacts)].
  unfold completions, timeouts, send_failures. rewrite Hl, !count_app.
  rewrite (count_benign (is_handler id) acts),
    (count_benign (is_timeout id) acts),
    (count_benign (is_send_failed id) acts);
    [lia | | done | | done | | done].
  - apply is_send_failed_not_benign.
  - apply is_timeout_not_benign.
  - apply is_handler_not_benign.
Qed.

Lemma frame_stored s s' id k :
  frame s s' → Stored id k ∈ log s' ↔ Stored id k ∈ log s.
Proof.
  intros [_ _ _ _ _ _ (acts & Hl & Hacts)]. rewrite Hl, elem_of_app.
  split; [|by left]. intros [?|Hin]; [done|].
  rewrite Forall_forall in Hacts. by apply Hacts in Hin.
Qed.

Lemma frame_callback s s' a :
  frame s s' → benign a = false → a ∈ log s' ↔ a ∈ log s.
Proof.
  intros [_ _ _ _ _ _ (acts & Hl & Hacts)] Ha. rewrite Hl, elem_of_app.
  split; [|by left]. intros [?|Hin]; [done|].
  rewrite Forall_forall in Hacts. apply Hacts in Hin. congruence.
Qed.

Lemma inv_frame b s s' : frame s s' → inv b s → inv b s'.
Proof.
  intros Hf Hinv.
  pose proof (frame_counts s s') as Hc.
  pose proof (frame_stored s s') as Hs.
  pose proof Hf as [Hh Hn Ht Hp Hi Ha Hl].
  destruct Hinv as [I1 I2 I3 I4 I5 I6 I7 I8 I9 I10 I11].
  split.
  - intros id k. rewrite Hs, Hn, Ha by done. apply I1.
  - intros id k id' k'. rewrite !Hs by done. apply I2.
  - intros id k. rewrite Hh, Hs by done. apply I3.
  - intros id k. rewrite Hh, Ht.
    destruct (Hc id Hf) as (-> & _ & _). apply I4.
  - intros k id ms. rewrite Hh, Ht.
    destruct (Hc id Hf) as (-> & _ & _). apply I5.
  - intros id k. rewrite Hh, Hp.
    destruct (Hc id Hf) as (_ & -> & ->). apply I6.
  - intros k id. rewrite Hi, Hs by done.
    destruct (Hc id Hf) as (_ & _ & ->). apply I7.
  - intros k o. rewrite Hp, Ha. apply I8.
  - intros id. destruct (Hc id Hf) as (-> & -> & ->). apply I9.
  - intros a Hin. destruct (benign a) eqn:Eb; [by destruct a|].
    apply (frame_callback s s' a Hf Eb) in Hin. specialize (I10 a Hin).
    destruct a; try done; rewrite Hs; done.
  - intros id k. rewrite Hs, Hh, Hp by done.
    destruct (Hc id Hf) as (-> & -> & ->). apply I11.
Qed.

Lemma count_pos p l : count p l ≠ 0%nat → ∃ a, a ∈ l ∧ p a = true.
Proof.
  induction l as [|a l IH]; simpl; [done|]. intros H.
  destruct (p a) eqn:E.
  - exists a. split; [left|done].
  - destruct IH as (b & Hb & Hp); [lia|]. exists b. split; [by right|done].
Qed.

(** Nothing was recorded about an id that has not been issued. *)
Lemma inv_unissued b s id :
  inv b s → nextRequestId s ≤ id →
  messageHandlers s !! id = None ∧ completions id s = 0%nat ∧
  timeouts id s = 0%nat ∧ send_failures id s = 0%nat.
Proof.
  intros Hinv Hid. split_and!.
  - destruct (messageHandlers s !! id) as [k|] eqn:E; [|done].
    apply (inv_handler_stored b s Hinv), (inv_stored_fresh b s Hinv) in E. lia.
  - destruct (decide (completions id s = 0%nat)) as [|Hne]; [done|].
    apply count_pos in Hne as (a & Hin & Hp).
    apply (inv_callbacks b s Hinv) in Hin. destruct a; try done.
    simpl in Hp. apply bool_decide_eq_true in Hp as ->.
    destruct Hin as [Hin _]. apply (inv_stored_fresh b s Hinv) in Hin. lia.
  - destruct (decide (timeouts id s = 0%nat)) as [|Hne]; [done|].
    apply count_pos in Hne as (a & Hin & Hp).
    apply (inv_callbacks b s Hinv) in Hin. destruct a; try done.
    simpl in Hp. apply bool_decide_eq_true in Hp as ->.
    apply (inv_stored_fresh b s Hinv) in Hin. lia.
  - destruct (decide (send_failures id s = 0%nat)) as [|Hne]; [done|].
    apply count_pos in Hne as (a & Hin & Hp).
    apply (inv_callbacks b s Hinv) in Hin. destruct a; try done.
    simpl in Hp. apply bool_decide_eq_true in Hp as ->.
    apply (inv_stored_fresh b s Hinv) in Hin. lia.
Qed.

(** No timer, promise or send exists yet for an activation that has not
    started. *)
Lemma inv_unstarted b s k :
  inv b s → (nextAct s ≤ k)%nat →
  timers s !! k = None ∧ promises s !! k = None ∧ inflight s !! k = None.
Proof.
  intros Hinv Hk. split_and!.
  - destruct (timers s !! k) as [[id ms]|] eqn:E; [|done].
    apply (inv_timer_handler b s Hinv) in E as [E _].
    apply (inv_handler_stored b s Hinv), (inv_stored_fresh b s Hinv) in E. lia.
  - destruct (promises s !! k) as [o|] eqn:E; [|done].
    apply (inv_promise_fresh b s Hinv) in E. lia.
  - destruct (inflight s !! k) as [id|] eqn:E; [|done].
    apply (inv_inflight b s Hinv) in E as [E _].
    apply (inv_stored_fresh b s Hinv) in E. lia.
Qed.

Lemma requested_counts request ms s id :
  completions id (requested request ms s) = completions id s ∧
  timeouts id (requested request ms s) = timeouts id s ∧
  send_failures id (requested request ms s) = send_failures id s.
Proof.
  unfold completions, timeouts, send_failures. simpl.
  rewrite !count_app. simpl. lia.
Qed.

Lemma requested_stored request ms s id k :
  Stored id k ∈ log (requested request ms s) ↔
  Stored id k ∈ log s ∨ (id = nextRequestId s ∧ k = nextAct s).
Proof.
  simpl. rewrite elem_of_app, !elem_of_cons, elem_of_nil.
  split.
  - intros [?|[[= -> ->]|[?|[]]]]; auto; done.
  - intros [?|[-> ->]]; auto.
Qed.

Lemma inv_requested b request ms s : inv b s → inv b (requested request ms s).
Proof.
  intros Hinv.
  pose proof (λ id, requested_counts request ms s id) as Hc.
  pose proof (requested_stored request ms s) as Hs.
  pose proof (inv_unissued b s (nextRequestId s) Hinv ltac:(lia))
    as (Hh0 & Hc0 & Ht0 & Hf0).
  pose proof (inv_unstarted b s (nextAct s) Hinv ltac:(lia)) as (Ht1 & Hp1 & Hi1).
  pose proof Hinv as [I1 I2 I3 I4 I5 I6 I7 I8 I9 I10 I11].
  split.
  - intros id k [Hin|[-> ->]]%Hs; simpl; [|lia].
    apply I1 in Hin. lia.
  - intros id k id' k' [H1|[-> ->]]%Hs [H2|[-> ->]]%Hs.
    + by apply I2.
    + apply I1 in H1. split; lia.
    + apply I1 in H2. split; lia.
    + done.
  - intros id k. rewrite Hs. simpl.
    intros [[<- <-]|[_ H]]%lookup_insert_Some; [by right|left; by apply I3].
  - intros id k. destruct (Hc id) as (-> & _ & _). simpl.
    intros [[<- <-]|[Hne H]]%lookup_insert_Some.
    + left. exists ms. by rewrite lookup_insert_eq.
    + destruct (I4 id k H) as [[ms' Hms]|?]; [left|by right]. exists ms'.
      rewrite lookup_insert_ne; [done|]. intros <-. congruence.
  - intros k id ms'. destruct (Hc id) as (-> & _ & _). simpl.
    intros [[<- [= <- <-]]|[Hne H]]%lookup_insert_Some.
    + by rewrite lookup_insert_eq.
    + apply I5 in H as [H ?]. split; [|done].
      rewrite lookup_insert_ne; [done|]. intros <-. congruence.
  - intros id k. destruct (Hc id) as (_ & -> & ->). simpl.
    intros [[<- <-]|[Hne H]]%lookup_insert_Some; [done|by apply I6].
  - intros k id. destruct (Hc id) as (_ & _ & ->). rewrite Hs. simpl.
    intros [[<- <-]|[Hne H]]%lookup_insert_Some; [split; [by right|done]|].
    apply I7 in H as [H ?]. split; [by left|done].
  - intros k o. simpl. intros H%I8. lia.
  - intros id. destruct (Hc id) as (-> & -> & ->). apply I9.
  - intros a. simpl. rewrite elem_of_app, !elem_of_cons, elem_of_nil.
    intros [Hin|[->|[->|[]]]]; [|done|done].
    specialize (I10 a Hin).
    destruct a; try done; rewrite elem_of_app; intuition.
  - intros id k. destruct (Hc id) as (-> & -> & ->). simpl.
    intros [Hin|[-> ->]]%Hs.
    + pose proof (I1 _ _ Hin) as [Hlt _].
      rewrite lookup_insert_ne by lia. by apply I11.
    + left. by rewrite lookup_insert_eq.
Qed.

(** Two registrations with the same id, or by the same activation, are
    the same registration. *)
Lemma inv_handler_inj b s id id' k :
  inv b s → messageHandlers s !! id = Some k → messageHandlers s !! id' = Some k →
  id = id'.
Proof.
  intros Hinv H1%(inv_handler_stored b s Hinv) H2%(inv_handler_stored b s Hinv).
  by apply (inv_stored_inj b s Hinv id k id' k).
Qed.

(** While no callback has thrown, the callback of a stored entry has not
    been invoked. *)
Lemma inv_entry_uninvoked s id k :
  inv false s → messageHandlers s !! id = Some k → completions id s = 0%nat.
Proof.
  intros Hinv Hk.
  destruct (inv_handler_timer false s Hinv id k Hk) as [[ms Hms]|[? _]];
    [|done].
  by apply (inv_timer_handler false s Hinv) in Hms as [_ ?].
Qed.

(** The common shape of the three resolutions of a stored entry: the entry
    and its timer go, its promise is settled, and the log records the
    callback that ran. *)
Lemma inv_resolve b s s' id k o pre a :
  inv b s →
  messageHandlers s !! id = Some k →
  messageHandlers s' = delete id (messageHandlers s) →
  timers s' = delete k (timers s) →
  promises s' = <[k := o]> (promises s) →
  (∀ k' id', inflight s' !! k' = Some id' → inflight s !! k' = Some id') →
  nextRequestId s' = nextRequestId s →
  nextAct s' = nextAct s →
  log s' = log s ++ pre ++ [a] →
  Forall (λ a, benign a = true) pre →
  match a with
  | Handler i j m => i = id ∧ j = k ∧ prop m "id" = VNum id
  | Timeout i j => i = id ∧ j = k ∧ completions id s = 0%nat
  | SendFailed i j _ => i = id ∧ j = k ∧ inflight s' !! k = None
  | _ => False
  end →
  inv b s'.
Proof.
  intros Hinv Hk Hh Ht Hp Hi Hn Ha Hl Hpre Hkind.
  pose proof Hinv as [I1 I2 I3 I4 I5 I6 I7 I8 I9 I10 I11].
  pose proof (I3 _ _ Hk) as Hst.
  pose proof (I6 _ _ Hk) as (Hp0 & Ht0 & Hf0).
  assert (Hcb : b = false → completions id s = 0%nat).
  { intros ->. by apply (inv_entry_uninvoked s id k). }
  assert (Hs : ∀ i j, Stored i j ∈ log s' ↔ Stored i j ∈ log s).
  { intros i j. rewrite Hl, !elem_of_app, list_elem_of_singleton.
    split; [|by left]. intros [?|[Hin|Heq]]; [done| |].
    - rewrite Forall_forall in Hpre. by apply Hpre in Hin.
    - subst a. by simpl in Hkind. }
  assert (Hcnt : ∀ p, (∀ b, p b = true → benign b = false) →
            count p (log s') = (count p (log s) + if p a then 1 else 0)%nat).
  { intros p Hpb. rewrite Hl, !count_app. rewrite (count_benign p pre) by done.
    simpl. lia. }
  assert (Hother : ∀ i, i ≠ id →
            completions i s' = completions i s ∧ timeouts i s' = timeouts i s ∧
            send_failures i s' = send_failures i s).
  { intros i Hne. unfold completions, timeouts, send_failures.
    rewrite !Hcnt by (intros []; done).
    destruct a; simpl in *; try done; destruct Hkind as (-> & _);
      rewrite bool_decide_eq_false_2 by done; lia. }
  assert (Hself : (timeouts id s' ≤ 1)%nat ∧ (send_failures id s' ≤ 1)%nat ∧
                  (timeouts id s' = 0 ∨ completions id s' = 0)%nat ∧
                  (b = false → (completions id s' + timeouts id s' ≤ 1)%nat) ∧
                  (1 ≤ completions id s' + timeouts id s' +
                       send_failures id s')%nat).
  { unfold completions, timeouts, send_failures in *.
    rewrite !Hcnt by (intros []; done). rewrite Ht0, Hf0.
    destruct a; simpl in *; try done; destruct Hkind as (-> & ? & ?);
      rewrite bool_decide_eq_true_2 by done;
      split_and!; try lia; intros Hb; specialize (Hcb Hb); lia. }
  split.
  - intros i j. rewrite Hs, Hn, Ha. apply I1.
  - intros i j i' j'. rewrite !Hs. apply I2.
  - intros i j. rewrite Hh, Hs. intros [_ H]%lookup_delete_Some. by apply I3.
  - intros i j. rewrite Hh, Ht. intros [Hne H]%lookup_delete_Some.
    destruct (Hother i) as (-> & _ & _); [done|].
    destruct (I4 _ _ H) as [[ms Hms]|?]; [left|by right]. exists ms.
    rewrite lookup_delete_ne; [done|]. intros <-.
    apply Hne. by apply (inv_handler_inj b s id i k).
  - intros j i ms. rewrite Hh, Ht. intros [Hne H]%lookup_delete_Some.
    apply I5 in H as [H Hc]. assert (i ≠ id) by (intros ->; congruence).
    destruct (Hother i) as (-> & _ & _); [done|]. split; [|done].
    by rewrite lookup_delete_ne.
  - intros i j. rewrite Hh, Hp. intros [Hne H]%lookup_delete_Some.
    destruct (Hother i) as (_ & -> & ->); [done|].
    rewrite lookup_insert_ne; [by apply I6|]. intros <-.
    apply Hne. by apply (inv_handler_inj b s id i k).
  - intros j i Hin. pose proof (Hi _ _ Hin) as [Hsj Hfj]%I7.
    rewrite Hs. split; [done|].
    destruct (decide (i = id)) as [->|Hne].
    + assert (j = k) as -> by (by apply (I2 id j id k)).
      destruct a; try done.
      * unfold send_failures. rewrite Hcnt by (intros []; done). simpl.
        unfold send_failures in Hfj. lia.
      * unfold send_failures. rewrite Hcnt by (intros []; done). simpl.
        unfold send_failures in Hfj. lia.
      * destruct Hkind as (_ & _ & Hnone). congruence.
    + by destruct (Hother i) as (_ & _ & ->).
  - intros j o'. rewrite Hp, Ha.
    intros [[<- _]|[_ H]]%lookup_insert_Some;
      [by apply I1 in Hst as [_ ?] | by apply I8 in H].
  - intros i. destruct (decide (i = id)) as [->|Hne];
      [by destruct Hself as (? & ? & ? & ? & _)|].
    destruct (Hother i) as (-> & -> & ->); [done|]. apply I9.
  - intros c Hc. rewrite Hl, !elem_of_app, list_elem_of_singleton in Hc.
    destruct Hc as [Hin|[Hin| ->]].
    + specialize (I10 c Hin). destruct c; try done; rewrite Hs; done.
    + rewrite Forall_forall in Hpre. apply Hpre in Hin. by destruct c.
    + destruct a; try done; rewrite Hs.
      * by destruct Hkind as (-> & -> & ?).
      * by destruct Hkind as (-> & -> & ?).
      * by destruct Hkind as (-> & -> & ?).
  - intros i j. rewrite Hs, Hh, Hp. intros Hin.
    destruct (decide (i = id)) as [->|Hne].
    + assert (j = k) as -> by (by apply (I2 id j id k)).
      right. rewrite lookup_delete_eq, lookup_insert_eq.
      split_and!; [done|by eexists|by destruct Hself as (_ & _ & _ & _ & ?)].
    + assert (j ≠ k) by (intros ->; by apply Hne, (I2 i k id k)).
      rewrite lookup_delete_ne, lookup_insert_ne by done.
      destruct (Hother i) as (-> & -> & ->); [done|]. by apply I11.
Qed.

Lemma inv_completed b s id k response :
  inv b s → messageHandlers s !! id = Some k → prop response "id" = VNum id →
  inv b (completed id k response s).
Proof.
  intros Hinv Hk Hid.
  destruct (inv_handler_unresolved b s Hinv id k Hk) as (Hp & _).
  apply (inv_resolve b s _ id k (outcome_of response) [] (Handler id k response));
    try done; unfold completed, settle, modify; simpl; rewrite Hp; done.
Qed.

Lemma aborted_counts id k response s i :
  completions i (aborted id k response s) =
    (completions i s + if bool_decide (id = i) then 1 else 0)%nat ∧
  timeouts i (aborted id k response s) = timeouts i s ∧
  send_failures i (aborted id k response s) = send_failures i s.
Proof.
  unfold completions, timeouts, send_failures, aborted. simpl.
  rewrite !count_app. simpl. lia.
Qed.

Lemma aborted_stored id k response s i j :
  Stored i j ∈ log (aborted id k response s) ↔ Stored i j ∈ log s.
Proof.
  simpl. rewrite elem_of_app, list_elem_of_singleton. split; [|by left].
  by intros [?|?].
Qed.

(** A throwing completion callback leaves its entry behind with the timer
    cancelled and the promise unsettled. *)
Lemma inv_aborted s id k response :
  inv true s → messageHandlers s !! id = Some k → prop response "id" = VNum id →
  inv true (aborted id k response s).
Proof.
  intros Hinv Hk Hid.
  pose proof (aborted_counts id k response s) as Hc.
  pose proof (aborted_stored id k response s) as Hs.
  pose proof Hinv as [I1 I2 I3 I4 I5 I6 I7 I8 I9 I10 I11].
  pose proof (I6 _ _ Hk) as (Hp0 & Ht0 & Hf0).
  split.
  - intros i j. rewrite Hs. apply I1.
  - intros i j i' j'. rewrite !Hs. apply I2.
  - intros i j. rewrite Hs. apply I3.
  - intros i j H. destruct (Hc i) as (-> & _ & _).
    destruct (decide (id = i)) as [<-|Hne].
    + right. rewrite bool_decide_eq_true_2 by done. split; [done|lia].
    + rewrite bool_decide_eq_false_2, Nat.add_0_r by done.
      destruct (I4 _ _ H) as [[ms Hms]|?]; [left|by right]. exists ms.
      simpl. rewrite lookup_delete_ne; [done|]. intros <-.
      apply Hne. by apply (inv_handler_inj true s id i k).
  - intros j i ms. simpl. intros [Hne H]%lookup_delete_Some.
    apply I5 in H as [H Hc0]. split; [done|].
    destruct (Hc i) as (-> & _ & _).
    rewrite bool_decide_eq_false_2; [lia|]. intros <-. congruence.
  - intros i j H. destruct (Hc i) as (_ & -> & ->). by apply I6.
  - intros j i H. destruct (Hc i) as (_ & _ & ->). rewrite Hs. by apply I7.
  - apply I8.
  - intros i. destruct (Hc i) as (-> & -> & ->).
    destruct (I9 i) as (? & ? & Hz & _). split_and!; [done..| |done].
    destruct (decide (id = i)) as [<-|Hne]; [by left|].
    by rewrite bool_decide_eq_false_2, Nat.add_0_r.
  - intros c Hin. simpl in Hin.
    rewrite elem_of_app, list_elem_of_singleton in Hin.
    destruct Hin as [Hin| ->].
    + specialize (I10 c Hin). destruct c; try done; rewrite Hs; done.
    + rewrite Hs. split; [by apply I3|done].
  - intros i j. rewrite Hs. intros Hin.
    destruct (Hc i) as (-> & -> & ->).
    destruct (I11 _ _ Hin) as [?|(? & ? & ?)]; [by left|right].
    split_and!; [done..|lia].
Qed.

Lemma inv_timed_out b s k id ms :
  inv b s → timers s !! k = Some (id, ms) → inv b (timed_out k id ms s).
Proof.
  intros Hinv [Hk Hc]%(inv_timer_handler b s Hinv).
  destruct (inv_handler_unresolved b s Hinv id k Hk) as (Hp & _).
  apply (inv_resolve b s _ id k (Rejected (RequestTimeout ms)) [] (Timeout id k));
    try done; unfold timed_out, timeoutCallback; unfold_m; simpl; rewrite Hp; done.
Qed.

(** A send that fails after its request was resolved finds nothing left
    to clean up. *)
Lemma inv_late_failure b s s' id k e pre :
  inv b s →
  inflight s !! k = Some id →
  messageHandlers s !! id = None →
  messageHandlers s' = messageHandlers s →
  timers s' = timers s →
  promises s' = promises s →
  (∀ k' id', inflight s' !! k' = Some id' → inflight s !! k' = Some id' ∧ k' ≠ k) →
  nextRequestId s' = nextRequestId s →
  nextAct s' = nextAct s →
  log s' = log s ++ pre ++ [SendFailed id k e] →
  Forall (λ a, benign a = true) pre →
  inv b s'.
Proof.
  intros Hinv Hk Hnone Hh Ht Hp Hi Hn Ha Hl Hpre.
  pose proof Hinv as [I1 I2 I3 I4 I5 I6 I7 I8 I9 I10 I11].
  pose proof (I7 _ _ Hk) as [Hst Hf0].
  assert (Hs : ∀ i j, Stored i j ∈ log s' ↔ Stored i j ∈ log s).
  { intros i j. rewrite Hl, !elem_of_app, list_elem_of_singleton.
    split; [|by left]. intros [?|[Hin|Heq]]; [done| |done].
    rewrite Forall_forall in Hpre. by apply Hpre in Hin. }
  assert (Hcnt : ∀ p, (∀ b, p b = true → benign b = false) →
            count p (log s') =
            (count p (log s) + if p (SendFailed id k e) then 1 else 0)%nat).
  { intros p Hpb. rewrite Hl, !count_app. rewrite (count_benign p pre) by done.
    simpl. lia. }
  assert (Hct : ∀ i, completions i s' = completions i s ∧ timeouts i s' = timeouts i s).
  { intros i. unfold completions, timeouts.
    rewrite !Hcnt by (intros []; done). simpl. lia. }
  assert (Hsf : ∀ i, send_failures i s' =
                     (send_failures i s + if bool_decide (id = i) then 1 else 0)%nat).
  { intros i. unfold send_failures. by rewrite Hcnt by (intros []; done). }
  split.
  - intros i j. rewrite Hs, Hn, Ha. apply I1.
  - intros i j i' j'. rewrite !Hs. apply I2.
  - intros i j. rewrite Hh, Hs. apply I3.
  - intros i j. rewrite Hh, Ht. destruct (Hct i) as [-> _]. apply I4.
  - intros j i ms. rewrite Hh, Ht. destruct (Hct i) as [-> _]. apply I5.
  - intros i j. rewrite Hh, Hp. intros H.
    destruct (Hct i) as [_ ->]. rewrite Hsf.
    rewrite bool_decide_eq_false_2 by congruence.
    rewrite Nat.add_0_r. by apply I6.
  - intros j i [Hin Hne]%Hi. pose proof (I7 _ _ Hin) as [Hsj Hfj].
    rewrite Hs. split; [done|]. rewrite Hsf.
    rewrite bool_decide_eq_false_2; [lia|].
    intros <-. apply Hne. by apply (I2 id j id k).
  - intros j o'. rewrite Hp, Ha. apply I8.
  - intros i. destruct (Hct i) as [-> ->]. rewrite Hsf.
    destruct (I9 i) as (? & ? & ? & ?). split_and!; [done| |done..].
    case_bool_decide as Hd; [subst i; lia|lia].
  - intros c Hc. rewrite Hl, !elem_of_app, list_elem_of_singleton in Hc.
    destruct Hc as [Hin|[Hin| ->]].
    + specialize (I10 c Hin). destruct c; try done; rewrite Hs; done.
    + rewrite Forall_forall in Hpre. apply Hpre in Hin. by destruct c.
    + by rewrite Hs.
  - intros i j. rewrite Hs, Hh, Hp. intros Hin.
    destruct (Hct i) as [-> ->]. rewrite Hsf.
    destruct (I11 _ _ Hin) as [?|(? & ? & Hcase)]; [by left|right].
    split_and!; [done..|]. lia.
Qed.

Lemma inv_send_done b s k id failure :
  inv b s → inflight s !! k = Some id → inv b (send_done k id failure s).
Proof.
  intros Hinv Hk.
  pose proof (inv_inflight b s Hinv k id Hk) as [Hst Hf0].
  destruct failure as [e|].
  - destruct (inv_outcome b s Hinv id k Hst) as [[Hh Hp]|(Hh & [o Hp] & _)].
    + apply (inv_resolve b s _ id k (Rejected e)
               [Console LError "Error sending message:"] (SendFailed id k e));
        try done; unfold send_done, sendErrorCallback; unfold_m; simpl;
        rewrite ?Hp; simpl; try done.
      * intros k' id' [_ ?]%lookup_delete_Some. done.
      * by rewrite <- app_assoc.
      * by repeat constructor.
      * split_and!; [done..|]. apply lookup_delete_eq.
    + assert (timers s !! k = None) as Htk.
      { destruct (timers s !! k) as [[id' ms]|] eqn:E; [|done].
        apply (inv_timer_handler b s Hinv) in E as [E _].
        pose proof (inv_handler_stored b s Hinv _ _ E) as Hst'.
        assert (id' = id) as -> by (by apply (inv_stored_inj b s Hinv id' k id k)).
        congruence. }
      apply (inv_late_failure b s _ id k e [Console LError "Error sending message:"]);
        try done; unfold send_done, sendErrorCallback; unfold_m; simpl;
        rewrite ?Hp; simpl; try done.
      * by apply delete_id.
      * by apply delete_id.
      * intros k' id' [? ?]%lookup_delete_Some. done.
      * by rewrite <- app_assoc.
      * by repeat constructor.
  - unfold send_done. unfold_m. simpl.
    pose proof Hinv as [I1 I2 I3 I4 I5 I6 I7 I8 I9 I10 I11].
    split; try done. simpl.
    intros k' id' [_ ?]%lookup_delete_Some. by apply I7.
Qed.

Lemma change_inv b s s' : change b s s' → inv b s → inv b s'.
Proof.
  destruct 1 as [| | |? ? ? ? ->| |]; intros Hinv.
  - by apply (inv_frame b s).
  - by apply inv_requested.
  - by apply inv_completed.
  - by apply inv_aborted.
  - by apply inv_timed_out.
  - by apply inv_send_done.
Qed.

Lemma init_inv b url : inv b (init url).
Proof.
  split; simpl; intros;
    repeat match goal with
           | H : _ ∈ [] |- _ => by apply elem_of_nil in H
           | H : ∅ !! _ = Some _ |- _ => by rewrite lookup_empty in H
           end.
  unfold completions, timeouts, send_failures. simpl.
  split_and!; lia.
Qed.

(** ** Client code changes the correlation state only by atomic changes *)

#[local] Instance changes_preorder b : PreOrder (changes b).
Proof. unfold changes. apply _. Qed.

Lemma frame_changes b s s' : frame s s' → changes b s s'.
Proof. intros H. apply rtc_once. by constructor. Qed.

Lemma logs_frame (P : action → Prop) s s' :
  (∀ a, P a → benign a = true) → logs P s s' → frame s s'.
Proof.
  intros HP (acts & -> & Hacts). split; simpl; try done.
  exists acts. split; [done|]. eapply Forall_impl; [exact Hacts|done].
Qed.

Lemma changes_logs b (P : action → Prop) {A} (m : M A) :
  (∀ a, P a → benign a = true) → respects (logs P) m → respects (changes b) m.
Proof. intros HP Hm s. eapply frame_changes, logs_frame; [exact HP|apply Hm]. Qed.

Lemma changes_tell b acts :
  Forall (λ a, benign a = true) acts → respects (changes b) (tell acts).
Proof.
  intros H. apply (changes_logs b (λ a, benign a = true)); [done|].
  by apply logs_tell.
Qed.

Lemma changes_emit b ev data : respects (changes b) (emit ev data).
Proof.
  apply (changes_logs b (λ a, benign a = true)); [done|]. by apply logs_emit.
Qed.

Lemma changes_sendMessage b message : respects (changes b) (sendMessage message).
Proof.
  apply (changes_logs b (λ a, benign a = true)); [done|].
  by apply logs_sendMessage.
Qed.

Lemma changes_modify b (f : world → world) :
  (∀ s, frame s (f s)) → respects (changes b) (modify f).
Proof. intros H s. apply frame_changes, H. Qed.

Lemma changes_sendRequest b request ms :
  respects (changes b) (sendRequest request ms).
Proof. intros s. rewrite sendRequest_run. apply rtc_once, change_request. Qed.

Ltac frame_setter :=
  intros; split; simpl; try done; exists []; by rewrite app_nil_r.

Ltac changes_step :=
  lazymatch goal with
  | |- respects _ (read _ _) => apply respects_read; apply _
  | |- respects _ (console _ _) => apply changes_tell; by repeat constructor
  | |- respects _ (tell _) => apply changes_tell; by repeat constructor
  | |- respects _ (emit _ _) => apply changes_emit
  | |- respects _ (sendMessage _) => apply changes_sendMessage
  | |- respects _ (sendNotification _) => apply changes_sendMessage
  | |- respects _ (sendRequest _ _) => apply changes_sendRequest
  | |- respects _ (await _ _) => apply changes_modify; frame_setter
  | |- respects _ (modify _) => apply changes_modify; frame_setter
  | |- respects _ (ret _) => apply respects_ret; apply _
  | |- respects _ (throw _) => apply respects_throw; apply _
  | |- respects _ get => apply respects_get; apply _
  | |- respects _ (bind _ _) => apply respects_bind; [apply _ | | intros ?]
  | |- respects _ (catch _ _) => apply respects_catch; [apply _ | | intros ?]
  | |- respects _ (match ?x with _ => _ end) => destruct x
  end.

Lemma handleServerRequest_logs request :
  respects (logs (λ a, benign a = true)) (handleServerRequest request).
Proof.
  unfold handleServerRequest.
  apply respects_bind; [apply _ | apply respects_read, _ | intros method].
  repeat (case_match; [repeat logs_step|]).
  repeat logs_step.
Qed.

Lemma truthy_num_nonzero n : truthy (VNum n) = true → n ≠ 0.
Proof. simpl. intros H%negb_true_iff. lia. Qed.

(** A Response reaching a stored entry is the one event that changes the
    correlation state from within [dispatch]; a throwing callback is a
    change only where throwing callbacks are admitted. *)
Lemma dispatch_changes b message :
  is_array message = false →
  b || negb (truthy (prop message "id") && callback_throws message) = true →
  respects (changes b) (dispatch message).
Proof.
  intros Harr Hb s. destruct message as [| |c|n|t|l|fields]; try done;
    try (apply frame_changes; frame_setter).
  - apply (changes_tell b [Console LWarn "Unhandled message:"]). by repeat constructor.
  - apply (changes_tell b [Console LWarn "Unhandled message:"]). by repeat constructor.
  - apply (changes_tell b [Console LWarn "Unhandled message:"]). by repeat constructor.
  - rewrite dispatch_object. simpl.
    destruct (truthy (field "method" fields) && negb (truthy (field "id" fields))).
    { apply (changes_logs b local_only); [by intros []|].
      apply handleNotification_logs. }
    destruct (truthy (field "id" fields) &&
              (truthy (field "result" fields) || truthy (field "error" fields)))
      eqn:Hresp.
    + apply andb_true_iff in Hresp as [Hid Hre].
      destruct (handlers_get _ _) as [k|] eqn:Hget.
      * destruct (field "id" fields) as [| | |n| | |] eqn:Eid; try done.
        simpl in Hget.
        destruct (callback_throws (VObj fields)) eqn:Ec.
        -- rewrite abort_run by done. simpl.
           apply rtc_once, change_abort; [|done|].
           ++ change (prop (VObj fields) "id") with (field "id" fields) in Hb.
              rewrite Eid, Hid in Hb. by destruct b.
           ++ simpl. by rewrite Eid.
        -- rewrite completion_run by done. simpl.
           apply rtc_once, change_complete; [done|]. simpl. by rewrite Eid.
      * apply (changes_tell b [Console LWarn "Received response for unknown request ID:"]).
        by repeat constructor.
    + destruct (truthy (field "method" fields) && truthy (field "id" fields)).
      * apply (changes_logs b (λ a, benign a = true)); [done|].
        apply handleServerRequest_logs.
      * apply (changes_tell b [Console LWarn "Unhandled message:"]).
        by repeat constructor.
Qed.

Lemma printable_dispatched message :
  is_array message = false →
  printable message = negb (truthy (prop message "id") && callback_throws message).
Proof. by destruct message. Qed.

Lemma handleIncomingMessage_changes b message :
  b || printable message = true →
  respects (changes b) (handleIncomingMessage message).
Proof.
  induction message as [v Hv | elems IH] using value_array_ind.
  - intros Hb. rewrite printable_dispatched in Hb by done.
    destruct v; try done; by apply dispatch_changes.
  - intros Hb. simpl. apply respects_forEach; [apply _|].
    apply Forall_forall. intros x Hx.
    rewrite Forall_forall in IH. apply IH; [done|].
    destruct b; [done|]. simpl in *.
    rewrite forallb_forall in Hb. apply Hb. by apply list_elem_of_In.
Qed.

Lemma resume_changes b c o : respects (changes b) (resume c o).
Proof. destruct c, o; simpl; repeat changes_step. Qed.

Lemma handle_changes b e :
  b || printable_event e = true → respects (changes b) (handle e).
Proof.
  intros Hb. destruct e; simpl.
  - unfold on. repeat changes_step.
  - unfold connect. destruct opens; repeat changes_step.
  - unfold disconnect. repeat changes_step.
  - unfold async, listTools. repeat changes_step.
  - unfold async, callTool. repeat changes_step.
  - unfold initialize. repeat changes_step.
  - unfold onMessage. destruct data as [message|]; [|repeat changes_step].
    apply respects_catch; [apply _ | by apply handleIncomingMessage_changes |].
    intros _. repeat changes_step.
  - repeat changes_step.
  - intros s. unfold bind at 1, get. simpl.
    destruct (timers s !! k) as [[id ms]|] eqn:E; [|reflexivity].
    by apply rtc_once, change_timeout.
  - intros s. unfold bind at 1, get. simpl.
    destruct (inflight s !! k) as [id|] eqn:E; [|reflexivity].
    by apply rtc_once, (change_sent b s k id failure).
  - apply respects_with; [apply _|]. intros s0.
    destruct (awaiting s0 !! k), (promises s0 !! k); repeat changes_step.
    apply resume_changes.
Qed.

Lemma step_changes e s : changes true s (step e s).
Proof. by apply handle_changes. Qed.

Lemma run_snoc es e s : run (es ++ [e]) s = step e (run es s).
Proof. unfold run. by rewrite foldl_app. Qed.

Lemma run_app es1 es2 s : run (es1 ++ es2) s = run es2 (run es1 s).
Proof. unfold run. by rewrite foldl_app. Qed.

Lemma run_changes es s : changes true s (run es s).
Proof.
  revert s. induction es as [|e es IH]; intros s; simpl; [reflexivity|].
  etrans; [apply step_changes | apply IH].
Qed.


Lemma changes_inv b s s' : changes b s s' → inv b s → inv b s'.
Proof. induction 1; eauto using change_inv. Qed.

Lemma reachable_inv s : reachable s → inv true s.
Proof.
  intros (url & es & ->). eapply changes_inv; [apply run_changes|apply init_inv].
Qed.

(** ** Once an entry is removed nothing more happens on its id *)

Lemma completed_counts id k response s i :
  completions i (completed id k response s) =
    (completions i s + if bool_decide (id = i) then 1 else 0)%nat ∧
  timeouts i (completed id k response s) = timeouts i s.
Proof.
  unfold completions, timeouts, completed, settle, modify. simpl.
  destruct (promises s !! k); simpl; rewrite !count_app; simpl; lia.
Qed.

Lemma timed_out_counts k id ms s i :
  completions i (timed_out k id ms s) = completions i s ∧
  timeouts i (timed_out k id ms s) =
    (timeouts i s + if bool_decide (id = i) then 1 else 0)%nat.
Proof.
  unfold completions, timeouts, timed_out, timeoutCallback. unfold_m. simpl.
  destruct (promises s !! k); simpl; rewrite !count_app; simpl; lia.
Qed.

Lemma send_done_counts k id failure s i :
  completions i (send_done k id failure s) = completions i s ∧
  timeouts i (send_done k id failure s) = timeouts i s.
Proof.
  unfold completions, timeouts, send_done, sendErrorCallback. unfold_m.
  destruct failure; simpl; [|done].
  destruct (promises s !! k); simpl; rewrite !count_app; simpl; lia.
Qed.

Lemma send_done_handlers k id failure s i :
  messageHandlers s !! i = None → messageHandlers (send_done k id failure s) !! i = None.
Proof.
  unfold send_done, sendErrorCallback. unfold_m.
  destruct failure; simpl; [|done].
  destruct (promises s !! k); simpl; intros H;
    apply lookup_delete_None; by right.
Qed.

Lemma change_gone b s s' id :
  change b s s' → inv b s →
  id < nextRequestId s → messageHandlers s !! id = None →
  id < nextRequestId s' ∧ messageHandlers s' !! id = None ∧
  completions id s' = completions id s ∧ timeouts id s' = timeouts id s.
Proof.
  intros Hch Hinv Hlt Hnone. destruct Hch as
    [s s' Hf | s request ms | s id' k response Hk Hid
    | s id' k response _ Hk Hid | s k id' ms Hk | s k id' failure Hk].
  - destruct (frame_counts s s' id Hf) as (-> & -> & _).
    destruct Hf as [-> -> _ _ _ _ _]. done.
  - destruct (requested_counts request ms s id) as (-> & -> & _). simpl.
    split_and!; [lia| |done..]. rewrite lookup_insert_ne; [done|lia].
  - destruct (completed_counts id' k response s id) as (-> & ->).
    rewrite bool_decide_eq_false_2 by congruence.
    unfold completed, settle, modify. simpl.
    split_and!; [by destruct (promises s !! k)| |lia|done].
    destruct (promises s !! k); simpl; apply lookup_delete_None; by right.
  - destruct (aborted_counts id' k response s id) as (-> & -> & _).
    rewrite bool_decide_eq_false_2 by congruence. simpl.
    split_and!; [done..|lia|done].
  - pose proof (inv_timer_handler b s Hinv _ _ _ Hk) as [Hh _].
    destruct (timed_out_counts k id' ms s id) as (-> & ->).
    rewrite bool_decide_eq_false_2 by congruence.
    unfold timed_out, timeoutCallback. unfold_m. simpl.
    split_and!; [by destruct (promises s !! k)| |done|lia].
    destruct (promises s !! k); simpl; apply lookup_delete_None; by right.
  - destruct (send_done_counts k id' failure s id) as (-> & ->).
    split_and!; [|by apply send_done_handlers|done..].
    unfold send_done, sendErrorCallback. unfold_m.
    destruct failure; simpl; [|done]. by destruct (promises s !! k).
Qed.

Lemma changes_gone b s s' id :
  changes b s s' → inv b s →
  id < nextRequestId s → messageHandlers s !! id = None →
  messageHandlers s' !! id = None ∧
  completions id s' = completions id s ∧ timeouts id s' = timeouts id s.
Proof.
  induction 1 as [s|s1 s2 s3 H12 _ IH]; intros Hinv Hlt Hnone; [done|].
  destruct (change_gone b s1 s2 id H12 Hinv Hlt Hnone) as (Hlt2 & Hn2 & <- & <-).
  apply IH; [by apply (change_inv b s1)|done..].
Qed.

(** ** Correlation (C1) *)








(** ** Send failures (C10) *)

Lemma step_sent s k id failure :
  inflight s !! k = Some id → step (ESent k failure) s = send_done k id failure s.
Proof. intros H. unfold step, handle, bind at 1, get. simpl. by rewrite H. Qed.

(** C10 (as amended).  When the send of a request fails, the catch
    callback leaves no entry for the id and no armed timer of its
    activation, and itself invokes neither the completion callback nor the
    timeout.  A promise that was settled before the failure was handled
    keeps the outcome it had; one that was not is rejected with the send
    error.  If the request was still pending at that moment, its promise
    is rejected with the send error and its completion callback and its
    timeout are never invoked, before or after.  In every case nothing
    the client does later restores the entry or fires a completion or a
    timeout for the id. *)
Theorem send_failure_cleans_up
    (url : string) (es : list event) (k : nat) (id : Z) (e : error) :
  let s := run es (init url) in
  inflight s !! k = Some id →
  let s' := step (ESent k (Some e)) s in
  messageHandlers s' !! id = None ∧
  timers s' !! k = None ∧
  completions id s' = completions id s ∧ timeouts id s' = timeouts id s ∧
  (∀ o, promises s !! k = Some o → promises s' !! k = Some o) ∧
  (promises s !! k = None → promises s' !! k = Some (Rejected e)) ∧
  (pending id s →
   promises s' !! k = Some (Rejected e) ∧
   ∀ es', completions id (run es' s') = 0%nat ∧ timeouts id (run es' s') = 0%nat) ∧
  (∀ es', let s'' := run es' s' in
     messageHandlers s'' !! id = None ∧
     completions id s'' = completions id s' ∧ timeouts id s'' = timeouts id s').
Proof.
  intros s Hk s'.
  assert (Hinv : inv true s) by (apply reachable_inv; by exists url, es).
  assert (Hinv' : inv true s') by (eapply changes_inv; [apply step_changes|done]).
  destruct (inv_inflight true s Hinv k id Hk) as [Hst _].
  assert (Hs' : s' = send_done k id (Some e) s) by (by apply step_sent).
  assert (Hh' : messageHandlers s' !! id = None).
  { rewrite Hs'. unfold send_done, sendErrorCallback. unfold_m. simpl.
    destruct (promises s !! k); simpl; apply lookup_delete_eq. }
  assert (Hc' : completions id s' = completions id s ∧ timeouts id s' = timeouts id s).
  { rewrite Hs'. apply send_done_counts. }
  assert (Hlt' : id < nextRequestId s').
  { apply (inv_stored_fresh true s Hinv) in Hst as [Hlt _]. rewrite Hs'.
    unfold send_done, sendErrorCallback. unfold_m. simpl.
    by destruct (promises s !! k). }
  assert (Hforever : ∀ es',
            messageHandlers (run es' s') !! id = None ∧
            completions id (run es' s') = completions id s' ∧
            timeouts id (run es' s') = timeouts id s').
  { intros es'. by apply (changes_gone true); [apply run_changes|..]. }
  assert (Hnew : promises s !! k = None →
                 promises s' !! k = Some (Rejected e)).
  { intros Hp. rewrite Hs'. unfold send_done, sendErrorCallback. unfold_m.
    simpl. rewrite Hp. simpl. apply lookup_insert_eq. }
  split_and!; try done; try apply Hc'.
  - rewrite Hs'. unfold send_done, sendErrorCallback. unfold_m. simpl.
    destruct (promises s !! k); simpl; apply lookup_delete_eq.
  - intros o Hp. rewrite Hs'. unfold send_done, sendErrorCallback. unfold_m.
    simpl. by rewrite Hp.
  - intros (k' & ms & Hh & Ht).
    assert (k' = k) as ->.
    { apply (inv_handler_stored true s Hinv) in Hh.
      by apply (inv_stored_inj true s Hinv id k' id k). }
    destruct (inv_handler_unresolved true s Hinv id k Hh) as (Hp & Ht0 & _).
    destruct (inv_timer_handler true s Hinv k id ms Ht) as [_ Hc0].
    split; [by apply Hnew|].
    intros es'. destruct (Hforever es') as (_ & -> & ->).
    destruct Hc' as [-> ->]. done.
Qed.

Lemma initialize_in_flight :
  inflight (run [EConnect true; EEndpoint "/message?session=1"]
              (init "http://localhost:8080")) !! 0%nat = Some 1.
Proof. vm_compute. reflexivity. Qed.

Lemma initialize_pending :
  pending 1 (run [EConnect true; EEndpoint "/message?session=1"]
               (init "http://localhost:8080")).
Proof. exists 0%nat, 30000. split; vm_compute; reflexivity. Qed.

Lemma send_failure_cleans_up_witness :
  let s := run [EConnect true; EEndpoint "/message?session=1"]
               (init "http://localhost:8080") in
  let s' := step (ESent 0%nat (Some NetworkError)) s in
  promises s' !! 0%nat = Some (Rejected NetworkError) ∧
  ∀ es', completions 1 (run es' s') = 0%nat ∧ timeouts 1 (run es' s') = 0%nat.
Proof.
  exact (proj1 (proj2 (proj2 (proj2 (proj2 (proj2 (proj2
           (send_failure_cleans_up "http://localhost:8080"
              [EConnect true; EEndpoint "/message?session=1"] 0%nat 1
              NetworkError initialize_in_flight)))))))
           initialize_pending).
Defined.

(** C10, counterexample.  The timer of the initialize request fires
    first and the send fails afterwards: the promise stays rejected with
    the timeout error, not with the send error.  Likewise, when the
    Response arrives first and the send is then reported failed, the
    completion callback has been invoked and the promise stays resolved. *)
Lemma late_send_failure_does_not_reject :
  let timeout_first :=
    run [EConnect true; EEndpoint "/message?session=1"; ETimer 0%nat;
         ESent 0%nat (Some NetworkError)] (init "http://localhost:8080") in
  let response_first :=
    run [EConnect true; EEndpoint "/message?session=1";
         EMessage (Some initializeResponse);
         ESent 0%nat (Some (HttpError 500 "Internal Server Error"))]
        (init "http://localhost:8080") in
  promises timeout_first !! 0%nat = Some (Rejected (RequestTimeout 30000)) ∧
  send_failures 1 timeout_first = 1%nat ∧
  completions 1 response_first = 1%nat ∧
  send_failures 1 response_first = 1%nat ∧
  promises response_first !! 0%nat
    = Some (Resolved (prop initializeResponse "result")).
Proof. split_and!; reflexivity. Qed.

(** ** Request ids and progress tokens (C4) *)

Lemma step_callTool name args withProgress now s :
  connected s = true →
  step (ECallTool name args withProgress now) s =
    fst (callTool name args withProgress now s).
Proof.
  intros Hc. unfold step, handle, async, catch, bind.
  by rewrite callTool_run.
Qed.

Lemma progress_tokens_app l1 l2 :
  progress_tokens (l1 ++ l2) = progress_tokens l1 ++ progress_tokens l2.
Proof. unfold progress_tokens. by rewrite sent_app, omap_app. Qed.

(** C4 (as amended).  Two successive [callTool] calls with progress on a
    connected client post tools/call requests whose [_meta.progressToken]
    is the decimal clock reading of each call, so the two tokens are
    distinct exactly when the two clock readings differ.  Their request
    ids are the next two values of the counter: distinct, not pending
    before the respective call, and both pending afterwards. *)
Theorem callTool_ids_and_tokens
    (url : string) (es : list event)
    (name1 args1 name2 args2 : value) (now1 now2 : Z) :
  let s := run es (init url) in
  connected s = true →
  let s1 := step (ECallTool name1 args1 (VBool true) now1) s in
  let s2 := step (ECallTool name2 args2 (VBool true) now2) s1 in
  let id1 := nextRequestId s in
  let id2 := nextRequestId s1 in
  sent (log s2) =
    sent (log s) ++
    [toolCall id1 (toolParams name1 args1 true now1);
     toolCall id2 (toolParams name2 args2 true now2)] ∧
  progress_tokens (log s2) =
    progress_tokens (log s) ++ [progressToken now1; progressToken now2] ∧
  (progressToken now1 = progressToken now2 ↔ now1 = now2) ∧
  id2 = id1 + 1 ∧
  messageHandlers s !! id1 = None ∧
  messageHandlers s1 !! id2 = None ∧
  pending id1 s2 ∧ pending id2 s2.
Proof.
  intros s Hc s1 s2 id1 id2.
  assert (Hinv : inv true s) by (apply reachable_inv; by exists url, es).
  assert (Hr1 : s1 = fst (callTool name1 args1 (VBool true) now1 s))
    by (by apply step_callTool).
  pose proof Hr1 as Hs1. rewrite callTool_run in Hs1 by done. simpl in Hs1.
  assert (Hc1 : connected s1 = true) by (by rewrite Hs1).
  assert (Hr2 : s2 = fst (callTool name2 args2 (VBool true) now2 s1))
    by (by apply step_callTool).
  pose proof Hr2 as Hs2. rewrite callTool_run in Hs2 by done. simpl in Hs2.
  assert (Hid2 : id2 = id1 + 1) by (unfold id2; by rewrite Hs1).
  assert (Hk2 : nextAct s1 = S (nextAct s)) by (by rewrite Hs1).
  destruct (inv_unissued true s id1 Hinv) as (Hnone & _); [done|].
  assert (Hsent : sent (log s2) =
            sent (log s) ++
            [toolCall id1 (toolParams name1 args1 true now1);
             toolCall id2 (toolParams name2 args2 true now2)]).
  { rewrite Hr2, callTool_sent by done. rewrite Hr1, callTool_sent by done.
    rewrite <- Hr1. by rewrite <- app_assoc. }
  split_and!.
  - exact Hsent.
  - unfold progress_tokens. rewrite Hsent, omap_app. reflexivity.
  - unfold progressToken. split; [|by intros ->].
    intros [= H]. by apply (inj pretty) in H.
  - done.
  - done.
  - assert (inv true s1) as Hinv1 by (eapply changes_inv; [apply step_changes|done]).
    by destruct (inv_unissued true s1 id2 Hinv1) as (? & _).
  - exists (nextAct s), 30000. rewrite Hs2. simpl.
    fold id2. rewrite Hid2, Hk2.
    rewrite !lookup_insert_ne by lia.
    rewrite Hs1. simpl. by rewrite !lookup_insert_eq.
  - exists (nextAct s1), 30000. rewrite Hs2. simpl.
    fold id2. by rewrite !lookup_insert_eq.
Qed.

Lemma handshake_connected :
  connected (run handshake (init "http://localhost:8080")) = true.
Proof. vm_compute. reflexivity. Qed.

Lemma callTool_ids_and_tokens_witness :
  let s := run handshake (init "http://localhost:8080") in
  let s1 :=
    step (ECallTool (VStr "add") (VObj [("a", VNum 33); ("b", VNum 55)])
            (VBool true) 1700000000000) s in
  let s2 :=
    step (ECallTool (VStr "add") (VObj [("a", VNum 1); ("b", VNum 2)])
            (VBool true) 1700000000001) s1 in
  (progressToken 1700000000000 = progressToken 1700000000001
   ↔ 1700000000000 = 1700000000001) ∧
  nextRequestId s1 = nextRequestId s + 1 ∧
  messageHandlers s !! nextRequestId s = None ∧
  messageHandlers s1 !! nextRequestId s1 = None ∧
  pending (nextRequestId s) s2 ∧ pending (nextRequestId s1) s2.
Proof.
  exact (proj2 (proj2
           (callTool_ids_and_tokens "http://localhost:8080" handshake
              (VStr "add") (VObj [("a", VNum 33); ("b", VNum 55)])
              (VStr "add") (VObj [("a", VNum 1); ("b", VNum 2)])
              1700000000000 1700000000001 handshake_connected))).
Defined.

(** C4, counterexample.  Two [callTool] calls with progress that read the
    same millisecond from the clock carry the same progress token (while
    their request ids, 2 and 3, differ). *)
Lemma same_millisecond_same_token :
  let s2 :=
    run [ECallTool (VStr "add") (VObj [("a", VNum 33); ("b", VNum 55)])
           (VBool true) 1700000000000;
         ECallTool (VStr "add") (VObj [("a", VNum 1); ("b", VNum 2)])
           (VBool true) 1700000000000] ready in
  progress_tokens (log s2) = [VStr "1700000000000"; VStr "1700000000000"] ∧
  map (λ body, prop body "id") (drop 2 (sent (log s2))) = [VNum 2; VNum 3].
Proof. split; reflexivity. Qed.

(** * Further properties of the client *)

(** ** Event emitter *)

Lemma on_run ev cb s :
  on ev cb s =
    (set_eventListeners
       (<[ev := default [] (eventListeners s !! ev) ++ [cb]]> (eventListeners s)) s,
     Normal tt).
Proof. reflexivity. Qed.

(** X1.  After [on(ev, cb)] for each [cb] of a list, in order, [emit(ev,
    data)] calls the listeners registered earlier and then these, each
    once per registration and in registration order, with [data]; it
    returns normally and changes nothing but the log, and the listeners of
    every other event are as before. *)
Theorem emit_calls_listeners_in_registration_order
    (ev : string) (cbs : list nat) (data : payload) (s : world) :
  let s1 := fst (forEach (on ev) cbs s) in
  emit ev data s1 =
    (set_log
       (log s1 ++
        map (λ cb, Call cb data) (default [] (eventListeners s !! ev) ++ cbs))
       s1,
     Normal tt) ∧
  log s1 = log s ∧
  ∀ ev', ev' ≠ ev → eventListeners s1 !! ev' = eventListeners s !! ev'.
Proof.
  simpl. rewrite emit_run.
  assert (H : ∀ l s,
            eventListeners (fst (forEach (on ev) l s)) !! ev
              = match l with
                | [] => eventListeners s !! ev
                | _ => Some (default [] (eventListeners s !! ev) ++ l)
                end ∧
            log (fst (forEach (on ev) l s)) = log s ∧
            ∀ ev', ev' ≠ ev →
              eventListeners (fst (forEach (on ev) l s)) !! ev'
                = eventListeners s !! ev').
  { clear. induction l as [|cb l IH]; intros s; [done|].
    simpl. unfold bind. rewrite on_run.
    destruct (IH (set_eventListeners
                    (<[ev:=default [] (eventListeners s !! ev) ++ [cb]]>
                       (eventListeners s)) s)) as (IH1 & IH2 & IH3).
    split_and!.
    - rewrite IH1. simpl. rewrite lookup_insert_eq. simpl.
      destruct l; [done|]. by rewrite <- app_assoc.
    - by rewrite IH2.
    - intros ev' Hne. rewrite IH3 by done. simpl.
      by rewrite lookup_insert_ne. }
  destruct (H cbs s) as (H1 & H2 & H3). split_and!; [|done..].
  f_equal. f_equal. f_equal. f_equal. rewrite H1.
  destruct cbs; [by rewrite app_nil_r|done].
Qed.

(** ** Server-initiated requests *)

Lemma is_str_eq v t : is_str v t = true → v = VStr t.
Proof.
  destruct v as [| |b|n|u|l|fs]; try done. simpl.
  by intros ->%String.eqb_eq.
Qed.

Lemma sent_calls data (cbs : list nat) :
  sent (map (λ cb, Call cb data) cbs) = [].
Proof. by induction cbs. Qed.

Lemma server_request_dispatched (fields : list (string * value)) (s : world) :
  truthy (field "method" fields) = true →
  truthy (field "id" fields) = true →
  truthy (field "result" fields) = false →
  truthy (field "error" fields) = false →
  handleIncomingMessage (VObj fields) s = handleServerRequest (VObj fields) s.
Proof.
  intros Hm Hi Hr He. simpl. rewrite dispatch_object. simpl.
  by rewrite Hm, Hi, Hr, He.
Qed.

(** X2.  A [roots/list] request with a truthy id is surfaced to the
    listeners of [rootsListRequest] and then answered with one POST of
    [{jsonrpc: "2.0", id, result: {roots: []}}] carrying the request's id;
    nothing else changes. *)
Theorem roots_list_is_surfaced_and_answered
    (fields : list (string * value)) (s : world) :
  is_str (field "method" fields) "roots/list" = true →
  truthy (field "id" fields) = true →
  truthy (field "result" fields) = false →
  truthy (field "error" fields) = false →
  handleIncomingMessage (VObj fields) s =
    (set_log
       (log s ++
        [Console LLog "Server requested roots list"] ++
        map (λ cb, Call cb (PVal (VObj fields)))
            (default [] (eventListeners s !! "rootsListRequest")) ++
        [Fetch (endpoint s)
           (VObj [("jsonrpc", VStr "2.0"); ("id", field "id" fields);
                  ("result", VObj [("roots", VArr [])])])]) s,
     Normal tt).
Proof.
  intros Hm Hi Hr He.
  rewrite server_request_dispatched; try done;
    [|by apply (is_str_truthy _ "roots/list")].
  unfold handleServerRequest, read. simpl.
  change (bind (ret ?a) ?f) with (f a). simpl.
  rewrite (is_str_eq _ _ Hm). simpl.
  unfold bind at 1, console, tell, modify. simpl.
  unfold bind at 1. rewrite emit_run. simpl.
  unfold sendMessage, bind, get, tell, modify. simpl.
  by rewrite <- !app_assoc.
Qed.

Lemma roots_list_is_surfaced_and_answered_witness :
  sent (log (fst (handleIncomingMessage
                    (VObj [("jsonrpc", VStr "2.0"); ("id", VNum 7);
                           ("method", VStr "roots/list")])
                    (init "http://localhost:8080"))))
  = [VObj [("jsonrpc", VStr "2.0"); ("id", VNum 7);
           ("result", VObj [("roots", VArr [])])]].
Proof.
  rewrite (roots_list_is_surfaced_and_answered
             [("jsonrpc", VStr "2.0"); ("id", VNum 7);
              ("method", VStr "roots/list")]
             (init "http://localhost:8080")); reflexivity.
Defined.

(** X3.  A [sampling/createMessage] request with a truthy id is surfaced
    to the listeners of [samplingRequest] and is not answered: no message
    is sent, and nothing but the log changes. *)
Theorem sampling_is_surfaced_and_not_answered
    (fields : list (string * value)) (s : world) :
  is_str (field "method" fields) "sampling/createMessage" = true →
  truthy (field "id" fields) = true →
  truthy (field "result" fields) = false →
  truthy (field "error" fields) = false →
  handleIncomingMessage (VObj fields) s =
    (set_log
       (log s ++
        [Console LLog "Server requested LLM sampling:"] ++
        map (λ cb, Call cb (PVal (VObj fields)))
            (default [] (eventListeners s !! "samplingRequest"))) s,
     Normal tt) ∧
  sent (log (fst (handleIncomingMessage (VObj fields) s))) = sent (log s).
Proof.
  intros Hm Hi Hr He.
  assert (handleIncomingMessage (VObj fields) s =
    (set_log
       (log s ++
        [Console LLog "Server requested LLM sampling:"] ++
        map (λ cb, Call cb (PVal (VObj fields)))
            (default [] (eventListeners s !! "samplingRequest"))) s,
     Normal tt)) as Hrun.
  { rewrite server_request_dispatched; try done;
      [|by apply (is_str_truthy _ "sampling/createMessage")].
    unfold handleServerRequest, read. simpl.
    change (bind (ret ?a) ?f) with (f a). simpl.
    rewrite (is_str_eq _ _ Hm). simpl.
    unfold bind at 1, console, tell, modify. simpl.
    rewrite emit_run. simpl. by rewrite <- !app_assoc. }
  split; [done|]. rewrite Hrun. unfold fst, set_log, log at 1.
  rewrite !sent_app, sent_calls. simpl. by rewrite app_nil_r.
Qed.

Lemma sampling_is_surfaced_and_not_answered_witness :
  sent (log (fst (handleIncomingMessage
                    (VObj [("jsonrpc", VStr "2.0"); ("id", VNum 7);
                           ("method", VStr "sampling/createMessage")])
                    (init "http://localhost:8080")))) = [].
Proof.
  rewrite (proj2 (sampling_is_surfaced_and_not_answered
                    [("jsonrpc", VStr "2.0"); ("id", VNum 7);
                     ("method", VStr "sampling/createMessage")]
                    (init "http://localhost:8080")
                    eq_refl eq_refl eq_refl eq_refl)).
  reflexivity.
Defined.

(** X4.  A request with a truthy id whose method is none of [ping],
    [sampling/createMessage] and [roots/list] is answered with one POST of
    the error [{code: -32601, message: "Method not found"}] under the
    request's id, and no listener is called, provided the method can be
    converted to a string for the warning.  When it cannot (an object
    with an own [toString] property, or an array holding one), the
    conversion throws first: nothing is logged and no answer is sent. *)
Theorem unknown_method_is_answered_with_method_not_found
    (fields : list (string * value)) (s : world) :
  truthy (field "method" fields) = true →
  is_str (field "method" fields) "ping" = false →
  is_str (field "method" fields) "sampling/createMessage" = false →
  is_str (field "method" fields) "roots/list" = false →
  truthy (field "id" fields) = true →
  truthy (field "result" fields) = false →
  truthy (field "error" fields) = false →
  handleIncomingMessage (VObj fields) s =
    if convertible (field "method" fields) then
      (set_log
         (log s ++
          [Console LWarn "Unsupported server request method:";
           Fetch (endpoint s)
             (VObj [("jsonrpc", VStr "2.0"); ("id", field "id" fields);
                    ("error", VObj [("code", VNum (-32601));
                                    ("message", VStr "Method not found")])])]) s,
       Normal tt)
    else (s, Throw NotPrimitive).
Proof.
  intros Hm H1 H2 H3 Hi Hr He.
  rewrite server_request_dispatched by done.
  unfold handleServerRequest, read, interpolate. simpl.
  change (bind (ret ?a) ?f) with (f a). simpl. rewrite H1, H2, H3.
  destruct (convertible (field "method" fields)); [|done].
  change (bind (ret ?a) ?f) with (f a). simpl.
  unfold bind at 1, console, tell, modify. simpl.
  unfold sendMessage, bind, get, tell, modify. simpl.
  by rewrite <- !app_assoc.
Qed.

Lemma unknown_method_is_answered_with_method_not_found_witness :
  sent (log (fst (handleIncomingMessage
                    (VObj [("jsonrpc", VStr "2.0"); ("id", VStr "r1");
                           ("method", VStr "elicitation/create")])
                    (init "http://localhost:8080"))))
  = [VObj [("jsonrpc", VStr "2.0"); ("id", VStr "r1");
           ("error", VObj [("code", VNum (-32601));
                           ("message", VStr "Method not found")])]].
Proof.
  rewrite (unknown_method_is_answered_with_method_not_found
             [("jsonrpc", VStr "2.0"); ("id", VStr "r1");
              ("method", VStr "elicitation/create")]
             (init "http://localhost:8080")); reflexivity.
Defined.

(** ** Notifications *)

Lemma notification_dispatched (fields : list (string * value)) (s : world) :
  truthy (field "method" fields) = true →
  truthy (field "id" fields) = false →
  handleIncomingMessage (VObj fields) s = handleNotification (VObj fields) s.
Proof.
  intros Hm Hi. simpl. rewrite dispatch_object. simpl. by rewrite Hm, Hi.
Qed.

(** X5.  Handling a notification (an object with a truthy method and a
    falsy id) has no effect other than console output and listener calls,
    also when it throws: nothing is sent, and the correlation table, the
    timers, the promises and the session flags are untouched. *)
Theorem notification_only_logs_and_calls_listeners
    (fields : list (string * value)) (s : world) :
  truthy (field "method" fields) = true →
  truthy (field "id" fields) = false →
  ∃ acts,
    fst (handleIncomingMessage (VObj fields) s) = set_log (log s ++ acts) s ∧
    Forall local_only acts ∧
    sent (log s ++ acts) = sent (log s).
Proof.
  intros Hm Hi. rewrite notification_dispatched by done.
  destruct (handleNotification_logs (VObj fields) s) as (acts & Hacts & Hall).
  exists acts. split_and!; [done..|].
  rewrite sent_app. rewrite <- (app_nil_r (sent (log s))) at 2. f_equal.
  clear Hacts. induction Hall as [|a acts Ha _ IH]; [done|].
  destruct a; simpl in *; done.
Qed.

Lemma notification_only_logs_and_calls_listeners_witness :
  ∃ acts,
    fst (handleIncomingMessage progressNotification initializing)
      = set_log (log initializing ++ acts) initializing ∧
    Forall local_only acts ∧
    sent (log initializing ++ acts) = sent (log initializing).
Proof.
  exact (notification_only_logs_and_calls_listeners
           [("jsonrpc", VStr "2.0"); ("method", VStr "notifications/progress");
            ("params", VObj [("progressToken", VStr "1700000000000");
                             ("progress", VNum 1); ("total", VNum 2)])]
           initializing eq_refl eq_refl).
Defined.

(** X6.  A notification whose method is none of the six handled ones
    (also a method that is not a string) produces one console line and
    nothing else: no listener is called. *)
Theorem unknown_notification_is_only_logged
    (fields : list (string * value)) (s : world) :
  truthy (field "method" fields) = true →
  truthy (field "id" fields) = false →
  is_str (field "method" fields) "notifications/resources/list_changed" = false →
  is_str (field "method" fields) "notifications/resources/updated" = false →
  is_str (field "method" fields) "notifications/tools/list_changed" = false →
  is_str (field "method" fields) "notifications/prompts/list_changed" = false →
  is_str (field "method" fields) "notifications/progress" = false →
  is_str (field "method" fields) "notifications/message" = false →
  handleIncomingMessage (VObj fields) s =
    (set_log (log s ++ [Console LLog "Received notification:"]) s, Normal tt).
Proof.
  intros Hm Hi H1 H2 H3 H4 H5 H6.
  rewrite notification_dispatched by done.
  unfold handleNotification, read. simpl.
  change (bind (ret ?a) ?f) with (f a). simpl.
  by rewrite H1, H2, H3, H4, H5, H6.
Qed.

Lemma unknown_notification_is_only_logged_witness :
  handleIncomingMessage
    (VObj [("jsonrpc", VStr "2.0"); ("method", VStr "notifications/cancelled")])
    initializing
  = (set_log (log initializing ++ [Console LLog "Received notification:"])
       initializing, Normal tt).
Proof.
  exact (unknown_notification_is_only_logged
           [("jsonrpc", VStr "2.0"); ("method", VStr "notifications/cancelled")]
           initializing eq_refl eq_refl eq_refl eq_refl eq_refl eq_refl eq_refl
           eq_refl).
Defined.

(** ** Responses *)

Lemma unknown_response_run (fields : list (string * value)) (s : world) :
  truthy (field "id" fields) = true →
  truthy (field "result" fields) || truthy (field "error" fields) = true →
  handlers_get (field "id" fields) (messageHandlers s) = None →
  handleIncomingMessage (VObj fields) s =
    (set_log
       (log s ++ [Console LWarn "Received response for unknown request ID:"]) s,
     Normal tt).
Proof.
  intros Hi Hr Hg. simpl. rewrite dispatch_object. simpl.
  rewrite Hi, Hr, Hg. simpl. by rewrite andb_false_r.
Qed.

(** X7.  A message with a truthy id and a truthy [result] or [error] whose
    id is not a key of the correlation table (never issued, already
    resolved or timed out, or not a number, such as the string "1") is
    discarded with a warning: no callback runs and nothing else changes. *)
Theorem unknown_response_is_discarded
    (fields : list (string * value)) (s : world) :
  truthy (field "id" fields) = true →
  truthy (field "result" fields) || truthy (field "error" fields) = true →
  handlers_get (field "id" fields) (messageHandlers s) = None →
  handleIncomingMessage (VObj fields) s =
    (set_log
       (log s ++ [Console LWarn "Received response for unknown request ID:"]) s,
     Normal tt).
Proof. apply unknown_response_run. Qed.

Lemma string_id_not_pending :
  handlers_get (VStr "1") (messageHandlers initializing) = None ∧
  messageHandlers initializing !! 1 = Some 0%nat.
Proof. split; vm_compute; reflexivity. Qed.

Lemma unknown_response_is_discarded_witness :
  handleIncomingMessage
    (VObj [("jsonrpc", VStr "2.0"); ("id", VStr "1"); ("result", VObj [])])
    initializing
  = (set_log
       (log initializing ++
        [Console LWarn "Received response for unknown request ID:"])
       initializing,
     Normal tt).
Proof.
  exact (unknown_response_is_discarded
           [("jsonrpc", VStr "2.0"); ("id", VStr "1"); ("result", VObj [])]
           initializing eq_refl eq_refl (proj1 string_id_not_pending)).
Defined.

(** X8.  A Response delivered twice in one batch, for a stored entry.
    If the completion callback returns on it, the request is completed
    once: the first copy invokes the callback and removes the entry, the
    second is discarded with a warning.  If the callback throws on it (its
    error has a code or a message that cannot be converted to a string),
    the first copy invokes the callback, which cancels the timer and
    throws; the exception ends the batch, so the second copy is not
    processed and the entry stays. *)
Theorem duplicate_response_is_discarded
    (fields : list (string * value)) (s : world) (id : Z) (k : nat) :
  field "id" fields = VNum id →
  id ≠ 0 →
  truthy (field "result" fields) || truthy (field "error" fields) = true →
  messageHandlers s !! id = Some k →
  let s1 := completed id k (VObj fields) s in
  handleIncomingMessage (VArr [VObj fields; VObj fields]) s =
    if callback_throws (VObj fields) then
      (aborted id k (VObj fields) s, Throw NotPrimitive)
    else
      (set_log
         (log s1 ++ [Console LWarn "Received response for unknown request ID:"])
         s1,
       Normal tt).
Proof.
  intros Hid Hnz Hr Hk s1.
  rewrite !handleIncomingMessage_batch_cons. unfold bind at 1.
  destruct (callback_throws (VObj fields)) eqn:Ec.
  { by rewrite (response_aborts fields s id k). }
  rewrite (response_completes fields s id k) by done. fold s1.
  unfold bind at 1. rewrite unknown_response_run; [done| |done|].
  - rewrite Hid. simpl. apply negb_true_iff. lia.
  - rewrite Hid. simpl. unfold s1, completed, settle, modify. simpl.
    destruct (promises s !! k); simpl; apply lookup_delete_eq.
Qed.

Lemma duplicate_response_is_discarded_witness :
  completions 1
    (fst (handleIncomingMessage (VArr [initializeResponse; initializeResponse])
            initializing)) = 1%nat.
Proof.
  unfold initializeResponse.
  rewrite (duplicate_response_is_discarded
             [("jsonrpc", VStr "2.0"); ("id", VNum 1);
              ("result",
               VObj [("protocolVersion", VStr "2025-03-26");
                     ("capabilities", VObj [("tools", VObj [])]);
                     ("serverInfo", VObj [("name", VStr "server")])])]
             initializing 1 0%nat eq_refl ltac:(done) eq_refl
             (proj2 string_id_not_pending)).
  vm_compute. reflexivity.
Defined.

(** ** Pending requests *)

Lemma completed_log id k response s :
  log (completed id k response s) = log s ++ [Handler id k response].
Proof. unfold completed, settle, modify. simpl. by destruct (promises s !! k). Qed.

Lemma timed_out_log k id ms s :
  log (timed_out k id ms s) = log s ++ [Timeout id k].
Proof.
  unfold timed_out, timeoutCallback. unfold_m. simpl.
  by destruct (promises s !! k).
Qed.

Lemma send_done_log k id failure s :
  log (send_done k id failure s) =
    log s ++
    match failure with
    | Some e => [Console LError "Error sending message:"; SendFailed id k e]
    | None => []
    end.
Proof.
  unfold send_done, sendErrorCallback. unfold_m.
  destruct failure; simpl; [|by rewrite app_nil_r].
  destruct (promises s !! k); simpl; by rewrite <- app_assoc.
Qed.

Lemma change_log b s s' : change b s s' → ∃ acts, log s' = log s ++ acts.
Proof.
  destruct 1 as [s s' [_ _ _ _ _ _ (acts & Hl & _)]| | | | |].
  - by exists acts.
  - simpl. by eexists.
  - rewrite completed_log. by eexists.
  - simpl. by eexists.
  - rewrite timed_out_log. by eexists.
  - rewrite send_done_log. by eexists.
Qed.

Lemma change_fired_mono b s s' id :
  change b s s' → (fired id s ≤ fired id s')%nat.
Proof.
  intros [acts Hl]%change_log. unfold fired, completions, timeouts, send_failures.
  rewrite Hl, !count_app. lia.
Qed.

Lemma changes_fired_mono b s s' id :
  changes b s s' → (fired id s ≤ fired id s')%nat.
Proof.
  induction 1 as [s|s1 s2 s3 H12 _ IH]; [done|].
  pose proof (change_fired_mono b s1 s2 id H12). lia.
Qed.

Lemma change_pending s s' id :
  change true s s' → inv true s → pending id s →
  pending id s' ∨ (fired id s < fired id s')%nat.
Proof.
  intros Hch Hinv (k & ms & Hh & Ht).
  destruct Hch as
    [s s' Hf | s request ms' | s id' k' response Hk Hid
    | s id' k' response _ Hk Hid | s k' id' ms' Hk | s k' id' failure Hk].
  - left. exists k, ms. destruct Hf as [-> _ -> _ _ _ _]. done.
  - left. exists k, ms. simpl.
    pose proof (inv_handler_stored true s Hinv _ _ Hh) as Hst.
    apply (inv_stored_fresh true s Hinv) in Hst as [? ?].
    rewrite !lookup_insert_ne by lia. done.
  - destruct (decide (id' = id)) as [->|Hne].
    + right. unfold fired, completions, timeouts, send_failures.
      rewrite completed_log, !count_app. simpl.
      rewrite bool_decide_eq_true_2 by done. lia.
    + left. exists k, ms.
      assert (k' ≠ k) by (intros ->; by apply Hne, (inv_handler_inj true s id' id k)).
      unfold completed, settle, modify. simpl.
      destruct (promises s !! k'); simpl; by rewrite !lookup_delete_ne.
  - destruct (decide (id' = id)) as [->|Hne].
    + right. unfold fired, completions, timeouts, send_failures. simpl.
      rewrite !count_app. simpl.
      rewrite bool_decide_eq_true_2 by done. lia.
    + left. exists k, ms.
      assert (k' ≠ k) by (intros ->; by apply Hne, (inv_handler_inj true s id' id k)).
      simpl. by rewrite lookup_delete_ne.
  - pose proof (inv_timer_handler true s Hinv _ _ _ Hk) as [Hh' _].
    destruct (decide (id' = id)) as [->|Hne].
    + right. unfold fired, completions, timeouts, send_failures.
      rewrite timed_out_log, !count_app. simpl.
      rewrite bool_decide_eq_true_2 by done. lia.
    + left. exists k, ms.
      assert (k' ≠ k) by (intros ->; by apply Hne, (inv_handler_inj true s id' id k)).
      unfold timed_out, timeoutCallback. unfold_m. simpl.
      destruct (promises s !! k'); simpl; by rewrite !lookup_delete_ne.
  - destruct failure as [e|].
    + destruct (decide (id' = id)) as [->|Hne].
      * right. unfold fired, completions, timeouts, send_failures.
        rewrite send_done_log, !count_app. simpl.
        rewrite bool_decide_eq_true_2 by done. lia.
      * left. exists k, ms.
        assert (k' ≠ k).
        { intros ->. apply Hne.
          destruct (inv_inflight true s Hinv _ _ Hk) as [Hst _].
          pose proof (inv_handler_stored true s Hinv _ _ Hh) as Hst'.
          by apply (inv_stored_inj true s Hinv id' k id k). }
        unfold send_done, sendErrorCallback. unfold_m. simpl.
        destruct (promises s !! k'); simpl; by rewrite !lookup_delete_ne.
    + left. exists k, ms. unfold send_done. unfold_m. done.
Qed.

Lemma changes_pending s s' id :
  changes true s s' → inv true s → pending id s →
  pending id s' ∨ (fired id s < fired id s')%nat.
Proof.
  induction 1 as [s|s1 s2 s3 H12 H23 IH]; intros Hinv Hp; [by left|].
  destruct (change_pending s1 s2 id H12 Hinv Hp) as [Hp2|Hlt].
  - destruct (IH (change_inv _ _ _ H12 Hinv) Hp2) as [?|?]; [by left|right].
    pose proof (change_fired_mono true s1 s2 id H12). lia.
  - right. pose proof (changes_fired_mono true s2 s3 id H23). lia.
Qed.

(** X9.  In a world reachable from a fresh client, a pending request
    stays pending (its entry in the table, its timer armed) through
    everything the client does, until one of its own three callbacks runs:
    its completion callback, its timeout, or the catch of its failed send.
    No other event, and no resolution of another request, removes it. *)
Theorem pending_until_own_callback
    (url : string) (es es' : list event) (id : Z) :
  let s := run es (init url) in
  let s' := run es' s in
  pending id s →
  pending id s' ∨ (1 ≤ fired id s')%nat.
Proof.
  intros s s' Hp.
  assert (Hinv : inv true s) by (apply reachable_inv; by exists url, es).
  destruct (changes_pending s s' id (run_changes es' s) Hinv Hp); [by left|].
  right. lia.
Qed.

Lemma initializing_pending :
  pending 1 (run [EOn "progress" 7%nat; EConnect true;
                  EEndpoint "/message?session=1"]
               (init "http://localhost:8080")).
Proof. exists 0%nat, 30000. split; vm_compute; reflexivity. Qed.

Lemma pending_until_own_callback_witness :
  let s := run [EOn "progress" 7%nat; EConnect true;
                EEndpoint "/message?session=1"]
               (init "http://localhost:8080") in
  let s' := run [EMessage (Some progressNotification); EDisconnect;
                 EMessage (Some (VObj [("id", VNum 2); ("result", VObj [])]))] s in
  pending 1 s' ∨ (1 ≤ fired 1 s')%nat.
Proof.
  exact (pending_until_own_callback "http://localhost:8080"
           [EOn "progress" 7%nat; EConnect true; EEndpoint "/message?session=1"]
           [EMessage (Some progressNotification); EDisconnect;
            EMessage (Some (VObj [("id", VNum 2); ("result", VObj [])]))]
           1 initializing_pending).
Defined.

(** ** Request ids *)

Lemma stored_ids_app l1 l2 : stored_ids (l1 ++ l2) = stored_ids l1 ++ stored_ids l2.
Proof. apply omap_app. Qed.

Lemma stored_ids_benign acts :
  Forall (λ a, benign a = true) acts → stored_ids acts = [].
Proof.
  induction 1 as [|a acts Ha _ IH]; [done|].
  destruct a; simpl in *; done.
Qed.

Lemma change_stored_ids b s s' :
  change b s s' →
  1 ≤ nextRequestId s ∧ stored_ids (log s) = seqZ 1 (nextRequestId s - 1) →
  1 ≤ nextRequestId s' ∧ stored_ids (log s') = seqZ 1 (nextRequestId s' - 1).
Proof.
  intros Hch [Hn Hs].
  destruct Hch as
    [s s' [_ Hnext _ _ _ _ (acts & Hl & Hb)] | s request ms
    | s id k response _ _ | s id k response _ _ _ | s k id ms _
    | s k id failure _].
  - rewrite Hnext, Hl, stored_ids_app, (stored_ids_benign acts) by done.
    by rewrite app_nil_r.
  - simpl. split; [lia|]. rewrite stored_ids_app, Hs. simpl.
    replace (nextRequestId s + 1 - 1) with ((nextRequestId s - 1) + 1) by lia.
    rewrite seqZ_app by lia. f_equal.
    replace (1 + (nextRequestId s - 1)) with (nextRequestId s) by lia.
    rewrite seqZ_cons by lia. by rewrite seqZ_nil by lia.
  - rewrite completed_log, stored_ids_app. simpl. rewrite app_nil_r.
    unfold completed, settle, modify. simpl.
    by destruct (promises s !! k).
  - simpl. rewrite stored_ids_app. simpl. by rewrite app_nil_r.
  - rewrite timed_out_log, stored_ids_app. simpl. rewrite app_nil_r.
    unfold timed_out, timeoutCallback. unfold_m. simpl.
    by destruct (promises s !! k).
  - rewrite send_done_log, stored_ids_app.
    assert (nextRequestId (send_done k id failure s) = nextRequestId s) as ->.
    { unfold send_done, sendErrorCallback. unfold_m.
      destruct failure; simpl; [|done]. by destruct (promises s !! k). }
    destruct failure; simpl; by rewrite app_nil_r.
Qed.

Lemma changes_stored_ids b s s' :
  changes b s s' →
  1 ≤ nextRequestId s ∧ stored_ids (log s) = seqZ 1 (nextRequestId s - 1) →
  1 ≤ nextRequestId s' ∧ stored_ids (log s') = seqZ 1 (nextRequestId s' - 1).
Proof. induction 1; eauto using change_stored_ids. Qed.

(** X10.  Request ids are issued consecutively from 1 and never reused:
    in a world reachable from a fresh client, the ids under which
    [sendRequest] has stored completion callbacks are exactly 1, 2, ...,
    [nextRequestId - 1], in this order, each once. *)
Theorem request_ids_are_consecutive (url : string) (es : list event) :
  let s := run es (init url) in
  stored_ids (log s) = seqZ 1 (nextRequestId s - 1) ∧
  NoDup (stored_ids (log s)).
Proof.
  intros s.
  assert (1 ≤ nextRequestId s ∧ stored_ids (log s) = seqZ 1 (nextRequestId s - 1))
    as [_ H].
  { by apply (changes_stored_ids true (init url) s); [apply run_changes|]. }
  split; [done|]. rewrite H. apply NoDup_seqZ.
Qed.

(** ** What each event can change *)

Lemma handleIncomingMessage_respects (R : relation world) `{!PreOrder R} :
  (∀ m, respects R (dispatch m)) → ∀ m, respects R (handleIncomingMessage m).
Proof.
  intros Hd m. induction m as [v Hv | elems IH] using value_array_ind.
  - destruct v; try done; apply Hd.
  - simpl. by apply respects_forEach.
Qed.

Lemma respects_modify (R : relation world) (f : world → world) :
  (∀ s, R s (f s)) → respects R (modify f).
Proof. intros H s. apply H. Qed.

Ltac head_of t :=
  lazymatch t with
  | ?f _ => head_of f
  | ?f => f
  end.

(** Reduce [respects R m] to one goal [R s (f s)] for each state change
    [modify f] that [m] can make. *)
Ltac steady_with prim :=
  repeat
    (first [ prim |
     lazymatch goal with
     | |- respects _ (bind _ _) => apply respects_bind; [apply _ | | intros ?]
     | |- respects _ (catch _ _) => apply respects_catch; [apply _ | | intros ?]
     | |- respects _ (ret _) => apply respects_ret; apply _
     | |- respects _ (throw _) => apply respects_throw; apply _
     | |- respects _ get => apply respects_get; apply _
     | |- respects _ (read _ _) => apply respects_read; apply _
     | |- respects _ (modify _) => apply respects_modify; intros ?
     | |- respects _ (handleIncomingMessage _) =>
         apply handleIncomingMessage_respects; [apply _ | intros ?]
     | |- respects _ (match ?x with _ => _ end) => destruct x
     | |- respects _ ?m => let h := head_of m in unfold h
     end ]).

Ltac steady := steady_with fail.

#[local] Instance keeps_address_preorder : PreOrder keeps_address.
Proof.
  split.
  - intros s. split_and!; [done..|]. exists []. by rewrite app_nil_r.
  - intros s1 s2 s3 (He1 & Hu1 & a1 & Hl1 & H1) (He2 & Hu2 & a2 & Hl2 & H2).
    split_and!; [congruence..|]. exists (a1 ++ a2). split.
    + by rewrite Hl2, Hl1, app_assoc.
    + apply Forall_app. split; [done|].
      assert (endpoint s2 = endpoint s1) as <-
        by (unfold endpoint; by rewrite He1, Hu1).
      done.
Qed.

Ltac address_kept :=
  simpl; repeat case_match; simpl;
  (split_and!; [done..|]);
  first
    [ exists []; by rewrite app_nil_r
    | eexists; split; [reflexivity|];
      first [ by repeat constructor
            | apply Forall_map, Forall_true; done ] ].

Lemma sendMessage_keeps_address message :
  respects keeps_address (sendMessage message).
Proof.
  intros s. split_and!; [done..|]. eexists. split; [reflexivity|].
  by repeat constructor.
Qed.

Lemma handle_keeps_address e :
  is_endpoint_event e = false → respects keeps_address (handle e).
Proof.
  destruct e; try done; intros _; simpl;
    steady_with ltac:(apply sendMessage_keeps_address); address_kept.
Qed.

(** X11.  The address the client posts to changes only on an [endpoint]
    event of the stream.  That event sets it to the announced address (to
    the default [serverUrl/message] if the announced address is empty),
    and through any events that are not endpoint events it stays the same
    and every message posted goes to it. *)
Theorem endpoint_changes_only_by_endpoint_event
    (es : list event) (data : string) (s : world) :
  endpoint (step (EEndpoint data) s) =
    (if String.eqb data "" then serverUrl s +:+ "/message" else data) ∧
  (forallb (λ e, negb (is_endpoint_event e)) es = true →
   endpoint (run es s) = endpoint s ∧
   ∃ acts,
     log (run es s) = log s ++ acts ∧
     Forall (λ a, match a with Fetch e _ => e = endpoint s | _ => True end) acts).
Proof.
  split; [done|]. intros Hes.
  assert (keeps_address s (run es s)) as (He & Hu & Hacts).
  { revert s. induction es as [|e es IH]; intros s; [reflexivity|].
    simpl in Hes. apply andb_true_iff in Hes as [He Hes]. simpl.
    etrans; [|by apply IH].
    apply handle_keeps_address. by apply negb_true_iff. }
  split; [|done]. unfold endpoint. by rewrite He, Hu.
Qed.

Lemma endpoint_changes_only_by_endpoint_event_witness :
  let s := step (EEndpoint "/message?session=1") (init "http://localhost:8080") in
  let es := [EMessage (Some initializeResponse); EResume 0%nat; EListTools] in
  endpoint (run es s) = endpoint s ∧
  ∃ acts,
    log (run es s) = log s ++ acts ∧
    Forall (λ a, match a with Fetch e _ => e = endpoint s | _ => True end) acts.
Proof.
  exact (proj2 (endpoint_changes_only_by_endpoint_event
                  [EMessage (Some initializeResponse); EResume 0%nat; EListTools]
                  ""
                  (step (EEndpoint "/message?session=1")
                     (init "http://localhost:8080")))
               eq_refl).
Defined.

#[local] Instance not_connecting_preorder : PreOrder not_connecting.
Proof. split; unfold not_connecting; [by intros s|intros s1 s2 s3; auto]. Qed.

Ltac by_cases := intros; simpl; repeat case_match; simpl in *; done.

Lemma resume_not_connecting c o :
  (∀ r, (c, o) ≠ (KInitialize, Resolved r)) → respects not_connecting (resume c o).
Proof.
  intros Hne. destruct c, o as [r|e]; simpl;
    try (by destruct (Hne r));
    steady; unfold not_connecting; by_cases.
Qed.

Lemma handle_not_connecting e :
  (∀ k, e ≠ EResume k) → respects not_connecting (handle e).
Proof.
  destruct e as [| | | | | | | | | |k]; intros Hne;
    try (by destruct (Hne k));
    simpl; steady; unfold not_connecting; by_cases.
Qed.

(** X12.  The session flag [connected] is raised only by the continuation
    of [initialize], run after the promise of the initialize request was
    resolved: every other event leaves a session that is not connected not
    connected. *)
Theorem connected_only_after_initialize (e : event) (s : world) :
  connected s = false →
  connected (step e s) = true →
  ∃ k r, e = EResume k ∧ awaiting s !! k = Some KInitialize ∧
         promises s !! k = Some (Resolved r).
Proof.
  intros Hoff Hon.
  assert ((∃ k, e = EResume k) ∨ (∀ k, e ≠ EResume k)) as [[k ->]|Hne]
    by (destruct e; eauto; right; done).
  - unfold step, handle in Hon. unfold bind at 1, get in Hon. simpl in Hon.
    destruct (awaiting s !! k) as [c|] eqn:Ea; [|simpl in Hon; congruence].
    destruct (promises s !! k) as [o|] eqn:Ep;
      [|destruct c; simpl in Hon; congruence].
    assert ((∃ r, c = KInitialize ∧ o = Resolved r) ∨
            (∀ r, (c, o) ≠ (KInitialize, Resolved r))) as [(r & -> & ->)|Hne]
      by (destruct c, o; eauto; right; intros r' [=]).
    { by exists k, r. }
    exfalso. assert (connected s = true); [|congruence].
    revert Hon. unfold bind at 1, modify. simpl.
    apply (resume_not_connecting c o Hne
             (set_awaiting (delete k (awaiting s)) s)).
  - exfalso. assert (connected s = true); [|congruence].
    apply (handle_not_connecting e Hne s Hon).
Qed.

Lemma awaiting_initialize :
  let s := run [EConnect true; EEndpoint "/message?session=1";
                EMessage (Some initializeResponse)]
               (init "http://localhost:8080") in
  connected s = false ∧ connected (step (EResume 0%nat) s) = true.
Proof. split; vm_compute; reflexivity. Qed.

Lemma connected_only_after_initialize_witness :
  let s := run [EConnect true; EEndpoint "/message?session=1";
                EMessage (Some initializeResponse)]
               (init "http://localhost:8080") in
  ∃ k r, EResume 0%nat = EResume k ∧ awaiting s !! k = Some KInitialize ∧
         promises s !! k = Some (Resolved r).
Proof.
  exact (connected_only_after_initialize (EResume 0%nat) _
           (proj1 awaiting_initialize) (proj2 awaiting_initialize)).
Defined.

#[local] Instance listeners_kept_preorder : PreOrder listeners_kept.
Proof.
  split.
  - intros s ev l H. exists []. by rewrite app_nil_r.
  - intros s1 s2 s3 H12 H23 ev l H.
    destruct (H12 ev l H) as [l1 H1]. destruct (H23 ev _ H1) as [l2 H2].
    exists (l1 ++ l2). by rewrite app_assoc.
Qed.

Lemma handle_listeners_kept e : respects listeners_kept (handle e).
Proof.
  destruct e as [name callback| | | | | | | | | |].
  { intros s ev0 l0 Hl0. simpl.
    destruct (decide (name = ev0)) as [->|Hne].
    - exists [callback]. rewrite lookup_insert_eq. by rewrite Hl0.
    - exists []. rewrite lookup_insert_ne by done. by rewrite app_nil_r. }
  all: simpl; steady; intros ev0 l0 Hl0; simpl;
    repeat case_match; simpl; exists []; by rewrite app_nil_r.
Qed.

(** X13.  Listeners are never removed: whatever happens later
    (disconnect and reconnect included), the listeners registered for an
    event stay registered, in their order, in front of any registered
    after them. *)
Theorem listeners_are_never_removed
    (es : list event) (s : world) (ev : string) (l : list nat) :
  eventListeners s !! ev = Some l →
  ∃ l', eventListeners (run es s) !! ev = Some (l ++ l').
Proof.
  revert s l. induction es as [|e es IH]; intros s l Hl; simpl.
  - exists []. by rewrite app_nil_r.
  - destruct (handle_listeners_kept e s ev l Hl) as [l1 H1].
    destruct (IH _ _ H1) as [l2 H2]. exists (l1 ++ l2).
    by rewrite app_assoc.
Qed.

Lemma progress_listener_registered :
  eventListeners (step (EOn "progress" 7%nat) (init "http://localhost:8080"))
    !! "progress" = Some [7%nat].
Proof. vm_compute. reflexivity. Qed.

Lemma listeners_are_never_removed_witness :
  ∃ l',
    eventListeners
      (run [EConnect true; EDisconnect; EOn "progress" 8%nat; EConnect true]
           (step (EOn "progress" 7%nat) (init "http://localhost:8080")))
      !! "progress" = Some ([7%nat] ++ l').
Proof.
  exact (listeners_are_never_removed
           [EConnect true; EDisconnect; EOn "progress" 8%nat; EConnect true]
           _ "progress" [7%nat] progress_listener_registered).
Defined.

#[local] Instance stays_closed_preorder : PreOrder stays_closed.
Proof. split; unfold stays_closed; [by intros s|intros s1 s2 s3; auto]. Qed.

Lemma handle_stays_closed e :
  is_connect_event e = false → respects stays_closed (handle e).
Proof.
  destruct e; try done; intros _; simpl; steady; unfold stays_closed; by_cases.
Qed.

Lemma disconnect_closed s : eventSource s = None → step EDisconnect s = s.
Proof. intros H. unfold step, handle, disconnect. unfold_m. by rewrite H. Qed.

(** X14.  After [disconnect()], and through any events other than a new
    [connect()], the stream stays closed and a further [disconnect()]
    changes nothing: it closes nothing and emits no disconnect event. *)
Theorem disconnect_stays_a_no_op (es : list event) (s : world) :
  forallb (λ e, negb (is_connect_event e)) es = true →
  let s1 := run es (step EDisconnect s) in
  eventSource s1 = None ∧ step EDisconnect s1 = s1.
Proof.
  intros Hes s1.
  assert (eventSource (step EDisconnect s) = None) as H0.
  { unfold step, handle, disconnect. unfold_m. simpl.
    destruct (eventSource s) eqn:E; simpl; [|done].
    by destruct (eventListeners s !! "disconnect"). }
  assert (eventSource s1 = None) as H1.
  { unfold s1. revert H0. generalize (step EDisconnect s) as w.
    induction es as [|e es IH]; intros w Hw; [done|].
    simpl in Hes. apply andb_true_iff in Hes as [He Hes]. simpl.
    apply IH; [done|]. apply handle_stays_closed; [|done].
    by apply negb_true_iff. }
  split; [done|]. by apply disconnect_closed.
Qed.

Lemma disconnect_stays_a_no_op_witness :
  let s1 := run [EMessage (Some progressNotification); ETimer 0%nat; EListTools]
                (step EDisconnect initializing) in
  eventSource s1 = None ∧ step EDisconnect s1 = s1.
Proof.
  exact (disconnect_stays_a_no_op
           [EMessage (Some progressNotification); ETimer 0%nat; EListTools]
           initializing eq_refl).
Defined.

(** ** Round trips *)

(** The completion callback returns on a Response without an error. *)
Lemma no_error_returns (fields : list (string * value)) :
  truthy (field "error" fields) = false → callback_throws (VObj fields) = false.
Proof. unfold callback_throws. simpl. by intros ->. Qed.

Lemma step_message_response (fields : list (string * value)) s id k :
  field "id" fields = VNum id →
  id ≠ 0 →
  truthy (field "result" fields) || truthy (field "error" fields) = true →
  messageHandlers s !! id = Some k →
  callback_throws (VObj fields) = false →
  step (EMessage (Some (VObj fields))) s = completed id k (VObj fields) s.
Proof.
  intros Hid Hnz Hre Hk Hc. unfold step, handle, onMessage, catch.
  by rewrite (response_completes fields s id k).
Qed.

(** A request, its Response and the continuation of the awaiting
    operation, from a world that satisfies the correlation invariant. *)
Lemma round_trip (s : world) (request : value) (c : cont)
    (fields : list (string * value)) :
  inv true s →
  1 ≤ nextRequestId s →
  field "id" fields = VNum (nextRequestId s) →
  truthy (field "result" fields) || truthy (field "error" fields) = true →
  callback_throws (VObj fields) = false →
  let id := nextRequestId s in
  let k := nextAct s in
  let s1 := set_awaiting (<[k := c]> (awaiting s)) (requested request 30000 s) in
  let s2 := step (EMessage (Some (VObj fields))) s1 in
  let o := outcome_of (VObj fields) in
  s2 = set_messageHandlers (delete id (messageHandlers s1))
         (set_promises (<[k := o]> (promises s1))
            (set_timers (delete k (timers s1))
               (set_log (log s1 ++ [Handler id k (VObj fields)]) s1))) ∧
  step (EResume k) s2 =
    fst (resume c o (set_awaiting (delete k (awaiting s2)) s2)).
Proof.
  intros Hinv Hn Hid Hre Hc id k s1 s2 o.
  destruct (inv_unstarted true s k Hinv) as (_ & Hp & _); [done|].
  assert (Hs2 : s2 = completed id k (VObj fields) s1).
  { apply step_message_response; [done|unfold id; lia|done| |done].
    simpl. apply lookup_insert_eq. }
  assert (Hs2' : s2 = set_messageHandlers (delete id (messageHandlers s1))
         (set_promises (<[k := o]> (promises s1))
            (set_timers (delete k (timers s1))
               (set_log (log s1 ++ [Handler id k (VObj fields)]) s1)))).
  { rewrite Hs2. unfold completed, settle, modify. simpl. fold k. by rewrite Hp. }
  split; [done|].
  unfold step, handle. unfold bind at 1, get. simpl.
  rewrite Hs2'. simpl. fold k. rewrite !lookup_insert_eq. done.
Qed.

Lemma reachable_next_positive url es : 1 ≤ nextRequestId (run es (init url)).
Proof.
  by apply (changes_stored_ids true (init url) (run es (init url)));
    [apply run_changes|].
Qed.

Lemma step_listTools s :
  connected s = true →
  step EListTools s =
    set_awaiting (<[nextAct s := KListTools]> (awaiting s))
      (requested (VObj [("method", VStr "tools/list")]) 30000 s).
Proof.
  intros Hc.
  assert (listTools s =
            (set_awaiting (<[nextAct s := KListTools]> (awaiting s))
               (requested (VObj [("method", VStr "tools/list")]) 30000 s),
             Normal (nextAct s))) as Hrun.
  { unfold listTools, bind at 1, get. rewrite Hc. simpl.
    unfold bind at 1. by rewrite sendRequest_run. }
  unfold step, handle, async, catch, bind. by rewrite Hrun.
Qed.

(** X15.  On a connected client, [listTools()] posts
    [{jsonrpc: "2.0", id, method: "tools/list", params: {}}] under the
    next request id; when the Response with that id and a truthy result
    (and no error) arrives, the promise [listTools] returned resolves with
    [result.tools], and the request's entry and timer are gone. *)
Theorem listTools_round_trip
    (url : string) (es : list event) (fields : list (string * value)) :
  let s := run es (init url) in
  let id := nextRequestId s in
  let k := nextAct s in
  connected s = true →
  field "id" fields = VNum id →
  truthy (field "result" fields) = true →
  truthy (field "error" fields) = false →
  let s3 := run [EListTools; EMessage (Some (VObj fields)); EResume k] s in
  log s3 =
    log s ++
    [Stored id k;
     Fetch (endpoint s)
       (VObj [("jsonrpc", VStr "2.0"); ("id", VNum id);
              ("method", VStr "tools/list"); ("params", VObj [])]);
     Handler id k (VObj fields);
     Settle OListTools (Resolved (prop (field "result" fields) "tools"))] ∧
  messageHandlers s3 !! id = None ∧
  timers s3 !! k = None.
Proof.
  intros s id k Hc Hid Hres Herr s3.
  assert (Hinv : inv true s) by (apply reachable_inv; by exists url, es).
  pose proof (reachable_next_positive url es) as Hn. fold s in Hn.
  destruct (round_trip s (VObj [("method", VStr "tools/list")]) KListTools fields
              Hinv Hn Hid) as [H2 H3];
    [by rewrite Hres | by apply no_error_returns |].
  unfold s3. simpl. rewrite step_listTools by done.
  fold id k in H2, H3 |- *. rewrite H3. rewrite H2.
  unfold outcome_of. simpl. rewrite Herr.
  unfold resume, catch, read, bind.
  assert (nullish (field "result" fields) = false) as ->
    by (by destruct (field "result" fields)).
  simpl. rewrite !lookup_delete_eq. split_and!; [|done..].
  by rewrite <- !app_assoc.
Qed.

Lemma handshake_next_id :
  VNum 2 = VNum (nextRequestId (run handshake (init "http://localhost:8080"))).
Proof. vm_compute. reflexivity. Qed.

Lemma listTools_round_trip_witness :
  let s := run handshake (init "http://localhost:8080") in
  let fields :=
    [("jsonrpc", VStr "2.0"); ("id", VNum 2);
     ("result", VObj [("tools", VArr [VObj [("name", VStr "add")]])])] in
  let s3 := run [EListTools; EMessage (Some (VObj fields)); EResume (nextAct s)] s in
  log s3 =
    log s ++
    [Stored (nextRequestId s) (nextAct s);
     Fetch (endpoint s)
       (VObj [("jsonrpc", VStr "2.0"); ("id", VNum (nextRequestId s));
              ("method", VStr "tools/list"); ("params", VObj [])]);
     Handler (nextRequestId s) (nextAct s) (VObj fields);
     Settle OListTools (Resolved (VArr [VObj [("name", VStr "add")]]))] ∧
  messageHandlers s3 !! nextRequestId s = None ∧
  timers s3 !! nextAct s = None.
Proof.
  exact (listTools_round_trip "http://localhost:8080" handshake
           [("jsonrpc", VStr "2.0"); ("id", VNum 2);
            ("result", VObj [("tools", VArr [VObj [("name", VStr "add")]])])]
           handshake_connected handshake_next_id eq_refl eq_refl).
Defined.

(** X16.  On a connected client, [callTool(name, args, withProgress)]
    posts the tools/call request under the next request id; when a
    Response with that id arrives on which the completion callback returns
    (its [error] is falsy, or the error's code and message can be converted
    to a string), the promise [callTool] returned is settled with what the
    Response carries: resolved with [result] when [error] is falsy,
    rejected with the error's code and message when [error] is truthy. *)
Theorem callTool_round_trip
    (url : string) (es : list event)
    (name args withProgress : value) (now : Z)
    (fields : list (string * value)) :
  let s := run es (init url) in
  let id := nextRequestId s in
  let k := nextAct s in
  connected s = true →
  field "id" fields = VNum id →
  truthy (field "result" fields) || truthy (field "error" fields) = true →
  callback_throws (VObj fields) = false →
  let s3 :=
    run [ECallTool name args withProgress now;
         EMessage (Some (VObj fields)); EResume k] s in
  let with_meta :=
    truthy (match withProgress with VUndefined => VBool true | w => w end) in
  log s3 =
    log s ++
    [Stored id k;
     Fetch (endpoint s) (toolCall id (toolParams name args with_meta now));
     Handler id k (VObj fields);
     Settle OCallTool
       (if truthy (field "error" fields)
        then Rejected (RpcError (prop (field "error" fields) "code")
                                (prop (field "error" fields) "message"))
        else Resolved (field "result" fields))] ∧
  messageHandlers s3 !! id = None ∧
  timers s3 !! k = None.
Proof.
  intros s id k Hc Hid Hre Hret s3 with_meta.
  assert (Hinv : inv true s) by (apply reachable_inv; by exists url, es).
  pose proof (reachable_next_positive url es) as Hn. fold s in Hn.
  destruct (round_trip s
              (VObj [("method", VStr "tools/call");
                     ("params", VObj (toolParams name args with_meta now))])
              KCallTool fields Hinv Hn Hid Hre Hret) as [H2 H3].
  unfold s3. simpl. rewrite step_callTool by done.
  rewrite callTool_run by done. simpl.
  fold id k with_meta in H2, H3 |- *. rewrite H3. rewrite H2.
  unfold outcome_of. simpl. rewrite !lookup_delete_eq.
  split_and!; [|done..]. by rewrite <- !app_assoc.
Qed.

Lemma callTool_round_trip_witness :
  let s := run handshake (init "http://localhost:8080") in
  let fields :=
    [("jsonrpc", VStr "2.0"); ("id", VNum 2);
     ("result", VObj [("content", VArr [VObj [("text", VStr "88")]])])] in
  let s3 :=
    run [ECallTool (VStr "add") (VObj [("a", VNum 33); ("b", VNum 55)])
           (VBool false) 1700000000000;
         EMessage (Some (VObj fields)); EResume (nextAct s)] s in
  log s3 =
    log s ++
    [Stored (nextRequestId s) (nextAct s);
     Fetch (endpoint s)
       (toolCall (nextRequestId s)
          (toolParams (VStr "add") (VObj [("a", VNum 33); ("b", VNum 55)])
             false 1700000000000));
     Handler (nextRequestId s) (nextAct s) (VObj fields);
     Settle OCallTool
       (Resolved (VObj [("content", VArr [VObj [("text", VStr "88")]])]))] ∧
  messageHandlers s3 !! nextRequestId s = None ∧
  timers s3 !! nextAct s = None.
Proof.
  exact (callTool_round_trip "http://localhost:8080" handshake
           (VStr "add") (VObj [("a", VNum 33); ("b", VNum 55)]) (VBool false)
           1700000000000
           [("jsonrpc", VStr "2.0"); ("id", VNum 2);
            ("result", VObj [("content", VArr [VObj [("text", VStr "88")]])])]
           handshake_connected handshake_next_id eq_refl eq_refl).
Defined.

(** ** Handshake *)

Lemma step_endpoint data s :
  step (EEndpoint data) s =
    set_awaiting (<[nextAct s := KInitialize]> (awaiting s))
      (requested
         (VObj [("method", VStr "initialize");
                ("params", VObj [("protocolVersion", VStr "2025-03-26");
                                 ("capabilities", capabilities);
                                 ("clientInfo", clientInfo)])])
         30000
         (set_log (log s ++ [Console LLog "Message endpoint:"])
            (set_messageEndpoint (Some data) s))).
Proof.
  unfold step, handle, initialize, await, console, tell, modify, bind, ret.
  by rewrite sendRequest_run.
Qed.

Lemma resume_initialize_run (r : value) (w : world) :
  nullish r = false →
  resume KInitialize (Resolved r) w =
    (set_log
       (log w ++
        [Console LLog "Server info:"; Console LLog "Server capabilities:";
         Fetch (endpoint w) initializedNotification] ++
        map (λ cb, Call cb (PVal r)) (default [] (eventListeners w !! "connect")) ++
        [Settle OConnect (Resolved r)])
       (set_serverCapabilities (prop r "capabilities") (set_connected true w)),
     Normal tt).
Proof.
  intros Hr. unfold resume, read. rewrite Hr. unfold_m. simpl.
  destruct (eventListeners w !! "connect"); simpl;
    by rewrite <- ?app_assoc.
Qed.

(** X17.  The handshake of a new client whose listeners are [listeners]:
    [connect()] opens the stream on [url/sse]; the endpoint event records
    the address and posts the initialize request under id 1; when its
    Response (truthy result, no error) has arrived and the continuation of
    [initialize] has run, the initialized notification has been posted to
    the same address, the session is connected, the server capabilities
    are [result.capabilities], the listeners of [connect] have been called
    with the whole result, and no request is pending. *)
Theorem handshake_completes
    (url data : string) (listeners : gmap string (list nat))
    (fields : list (string * value)) :
  field "id" fields = VNum 1 →
  truthy (field "result" fields) = true →
  truthy (field "error" fields) = false →
  let result := field "result" fields in
  let s0 := set_eventListeners listeners (init url) in
  let address := if String.eqb data "" then url +:+ "/message" else data in
  let s :=
    run [EConnect true; EEndpoint data; EMessage (Some (VObj fields));
         EResume 0%nat] s0 in
  connected s = true ∧
  serverCapabilities s = prop result "capabilities" ∧
  eventSource s = Some (url +:+ "/sse") ∧
  messageEndpoint s = Some data ∧
  messageHandlers s !! 1 = None ∧
  timers s !! 0%nat = None ∧
  log s =
    [OpenStream (url +:+ "/sse");
     Console LLog "Message endpoint:";
     Stored 1 0;
     Fetch address initializeRequest;
     Handler 1 0 (VObj fields);
     Console LLog "Server info:";
     Console LLog "Server capabilities:";
     Fetch address initializedNotification] ++
    map (λ cb, Call cb (PVal result)) (default [] (listeners !! "connect")) ++
    [Settle OConnect (Resolved result)].
Proof.
  intros Hid Hres Herr result s0 address s.
  set (sA := set_log [OpenStream (url +:+ "/sse"); Console LLog "Message endpoint:"]
               (set_messageEndpoint (Some data)
                  (set_eventSource (Some (url +:+ "/sse")) s0))).
  assert (Hinv : inv true sA).
  { apply (inv_frame true (init url)); [|apply init_inv].
    split; try done. eexists. split; [reflexivity|]. by repeat constructor. }
  assert (Hn : 1 ≤ nextRequestId sA) by done.
  destruct (round_trip sA
              (VObj [("method", VStr "initialize");
                     ("params", VObj [("protocolVersion", VStr "2025-03-26");
                                      ("capabilities", capabilities);
                                      ("clientInfo", clientInfo)])])
              KInitialize fields Hinv Hn Hid) as [H2 H3];
    [by rewrite Hres | by apply no_error_returns |].
  assert (Hstart : run [EConnect true; EEndpoint data] s0 =
            set_awaiting (<[nextAct sA := KInitialize]> (awaiting sA))
              (requested
                 (VObj [("method", VStr "initialize");
                        ("params", VObj [("protocolVersion", VStr "2025-03-26");
                                         ("capabilities", capabilities);
                                         ("clientInfo", clientInfo)])])
                 30000 sA)).
  { change (run [EConnect true; EEndpoint data] s0)
      with (step (EEndpoint data) (step (EConnect true) s0)).
    rewrite step_endpoint. reflexivity. }
  assert (Haddr : endpoint sA = address).
  { unfold endpoint, address. simpl. by destruct (String.eqb data ""). }
  assert (Hnn : nullish result = false)
    by (revert Hres; unfold result; by destruct (field "result" fields)).
  change (run [EConnect true; EEndpoint data; EMessage (Some (VObj fields));
               EResume 0%nat] s0)
    with (step (EResume (nextAct sA))
            (step (EMessage (Some (VObj fields)))
               (run [EConnect true; EEndpoint data] s0))) in s.
  unfold s. rewrite Hstart. rewrite H3, H2.
  assert (Ho : outcome_of (VObj fields) = Resolved result)
    by (unfold outcome_of; simpl; by rewrite Herr).
  rewrite Ho, resume_initialize_run by done. simpl. rewrite Haddr.
  rewrite !lookup_delete_eq. split_and!; try done.
Qed.

Lemma handshake_completes_witness :
  connected
    (run [EConnect true; EEndpoint "/message?session=1";
          EMessage (Some (VObj [("jsonrpc", VStr "2.0"); ("id", VNum 1);
                                ("result", VObj [("capabilities", VObj [])])]));
          EResume 0%nat]
       (set_eventListeners {["connect" := [3%nat]]} (init "http://localhost:8080")))
  = true.
Proof.
  exact (proj1 (handshake_completes "http://localhost:8080" "/message?session=1"
                  {["connect" := [3%nat]]}
                  [("jsonrpc", VStr "2.0"); ("id", VNum 1);
                   ("result", VObj [("capabilities", VObj [])])]
                  eq_refl eq_refl eq_refl)).
Defined.

(** ** Timeouts *)

Lemma stored_id_positive url es id k :
  Stored id k ∈ log (run es (init url)) → 1 ≤ id.
Proof.
  intros Hin.
  assert (1 ≤ nextRequestId (run es (init url)) ∧
          stored_ids (log (run es (init url)))
            = seqZ 1 (nextRequestId (run es (init url)) - 1)) as [_ Hids]
    by (by apply (changes_stored_ids true (init url)); [apply run_changes|]).
  assert (id ∈ stored_ids (log (run es (init url)))) as Hid.
  { unfold stored_ids. apply list_elem_of_omap. by exists (Stored id k). }
  rewrite Hids in Hid. apply elem_of_seqZ in Hid. lia.
Qed.

Lemma step_timer s k id ms :
  timers s !! k = Some (id, ms) → step (ETimer k) s = timed_out k id ms s.
Proof. intros H. unfold step, handle, bind at 1, get. simpl. by rewrite H. Qed.

(** X18.  When the timer of a pending request fires, its promise is
    rejected with the timeout error, its entry is removed, and the session
    stays as connected as it was; a Response for that id arriving
    afterwards is discarded with a warning and changes nothing else. *)
Theorem response_after_timeout_is_discarded
    (url : string) (es : list event) (k : nat) (id ms : Z)
    (fields : list (string * value)) :
  let s := run es (init url) in
  timers s !! k = Some (id, ms) →
  field "id" fields = VNum id →
  truthy (field "result" fields) || truthy (field "error" fields) = true →
  let s1 := step (ETimer k) s in
  promises s1 !! k = Some (Rejected (RequestTimeout ms)) ∧
  messageHandlers s1 !! id = None ∧
  timers s1 !! k = None ∧
  connected s1 = connected s ∧
  step (EMessage (Some (VObj fields))) s1 =
    set_log
      (log s1 ++ [Console LWarn "Received response for unknown request ID:"]) s1.
Proof.
  intros s Ht Hid Hre s1.
  assert (Hinv : inv true s) by (apply reachable_inv; by exists url, es).
  pose proof (inv_timer_handler true s Hinv _ _ _ Ht) as [Hh _].
  destruct (inv_handler_unresolved true s Hinv _ _ Hh) as (Hp & _).
  assert (1 ≤ id) as Hpos.
  { apply (stored_id_positive url es id k). by apply (inv_handler_stored true s Hinv). }
  assert (Hs1 : s1 =
            set_promises (<[k := Rejected (RequestTimeout ms)]> (promises s))
              (set_messageHandlers (delete id (messageHandlers s))
                 (set_log (log s ++ [Timeout id k])
                    (set_timers (delete k (timers s)) s)))).
  { unfold s1. rewrite (step_timer s k id ms) by done.
    unfold timed_out, timeoutCallback. unfold_m. simpl. by rewrite Hp. }
  assert (Hgone : messageHandlers s1 !! id = None)
    by (rewrite Hs1; apply lookup_delete_eq).
  split_and!.
  - rewrite Hs1. apply lookup_insert_eq.
  - done.
  - rewrite Hs1. apply lookup_delete_eq.
  - by rewrite Hs1.
  - unfold step, handle, onMessage, catch.
    rewrite unknown_response_run; [done| |done|].
    + rewrite Hid. simpl. apply negb_true_iff. lia.
    + by rewrite Hid.
Qed.

Lemma initialize_timer :
  timers (run [EConnect true; EEndpoint "/message?session=1"]
            (init "http://localhost:8080")) !! 0%nat = Some (1, 30000).
Proof. vm_compute. reflexivity. Qed.

Lemma response_after_timeout_is_discarded_witness :
  let s := run [EConnect true; EEndpoint "/message?session=1"]
               (init "http://localhost:8080") in
  let s1 := step (ETimer 0%nat) s in
  promises s1 !! 0%nat = Some (Rejected (RequestTimeout 30000)) ∧
  messageHandlers s1 !! 1 = None ∧
  timers s1 !! 0%nat = None ∧
  connected s1 = connected s ∧
  step (EMessage
          (Some (VObj [("jsonrpc", VStr "2.0"); ("id", VNum 1);
                       ("result", VObj [("capabilities", VObj [])])]))) s1 =
    set_log
      (log s1 ++ [Console LWarn "Received response for unknown request ID:"]) s1.
Proof.
  exact (response_after_timeout_is_discarded "http://localhost:8080"
           [EConnect true; EEndpoint "/message?session=1"] 0%nat 1 30000
           [("jsonrpc", VStr "2.0"); ("id", VNum 1);
            ("result", VObj [("capabilities", VObj [])])]
           initialize_timer eq_refl eq_refl).
Defined.

(** ** Batches that throw *)

Lemma handleIncomingMessage_batch_app (l1 l2 : list value) (s : world) :
  handleIncomingMessage (VArr (l1 ++ l2)) s =
    (let* _ := handleIncomingMessage (VArr l1) in
     handleIncomingMessage (VArr l2)) s.
Proof.
  revert s. induction l1 as [|x l1 IH]; intros s; [done|].
  rewrite <- app_comm_cons, !handleIncomingMessage_batch_cons.
  unfold bind at 1 2 3. destruct (handleIncomingMessage x s) as [s' [[]|e]]; [|done].
  rewrite IH. done.
Qed.

(** X19.  A batch stops at its first element whose handling throws: the
    elements before it have been processed, in order, and keep their
    effects; the elements after it are never looked at (the outcome does
    not depend on them); the message listener catches the error and logs
    one line. *)
Theorem batch_stops_at_first_throwing_element
    (pre post : list value) (bad : value) (s : world) :
  forallb completes pre = true →
  completes bad = false →
  let upto :=
    (let* _ := handleIncomingMessage (VArr pre) in handleIncomingMessage bad) s in
  (∃ e, handleIncomingMessage (VArr (pre ++ bad :: post)) s = (fst upto, Throw e)) ∧
  step (EMessage (Some (VArr (pre ++ bad :: post)))) s =
    set_log (log (fst upto) ++ [Console LError "Error parsing message:"]) (fst upto).
Proof.
  intros Hpre Hbad upto.
  assert (Hrun : ∃ e, handleIncomingMessage (VArr (pre ++ bad :: post)) s
                      = (fst upto, Throw e)).
  { rewrite handleIncomingMessage_batch_app, handleIncomingMessage_batch_cons.
    unfold upto, bind.
    destruct (handleIncomingMessage (VArr pre) s) as [s1 [[]|e]] eqn:E1.
    - destruct (not_completes_throws bad Hbad s1) as [e He].
      destruct (handleIncomingMessage bad s1) as [s2 c]. simpl in *. subst c.
      by exists e.
    - by exists e. }
  split; [done|]. destruct Hrun as [e He].
  unfold step, handle, onMessage, catch. by rewrite He.
Qed.

Lemma batch_stops_at_first_throwing_element_witness :
  let upto :=
    (let* _ := handleIncomingMessage (VArr [initializeResponse]) in
     handleIncomingMessage VNull) initializing in
  (∃ e, handleIncomingMessage
          (VArr ([initializeResponse] ++ VNull :: [progressNotification]))
          initializing = (fst upto, Throw e)) ∧
  step (EMessage (Some (VArr ([initializeResponse] ++ VNull ::
                              [progressNotification])))) initializing =
    set_log (log (fst upto) ++ [Console LError "Error parsing message:"]) (fst upto).
Proof.
  exact (batch_stops_at_first_throwing_element [initializeResponse]
           [progressNotification] VNull initializing eq_refl eq_refl).
Defined.

(** ** The table and the timers *)

(** X20.  In every world reachable from a fresh client the armed timers
    are the entries of the correlation table whose completion callback has
    not been invoked: the timer of activation [k] is armed for [id]
    exactly when the table holds an entry for [id] with the closure of [k]
    and that callback has never run.  (An entry whose callback has run is
    one whose callback threw; it stays in the table with its timer
    cancelled.)  While an entry exists, the promise of [k] is unsettled
    and neither the timeout nor the send-failure callback of [id] has
    run. *)
Theorem entries_and_timers_correspond
    (url : string) (es : list event) (id : Z) (k : nat) :
  let s := run es (init url) in
  ((∃ ms, timers s !! k = Some (id, ms)) ↔
   messageHandlers s !! id = Some k ∧ completions id s = 0%nat) ∧
  (messageHandlers s !! id = Some k →
   promises s !! k = None ∧ timeouts id s = 0%nat ∧
   send_failures id s = 0%nat).
Proof.
  intros s.
  assert (Hinv : inv true s) by (apply reachable_inv; by exists url, es).
  split; [split|].
  - intros [ms H]. by apply (inv_timer_handler true s Hinv) in H.
  - intros [H Hc].
    destruct (inv_handler_timer true s Hinv id k H) as [?|[_ ?]]; [done|lia].
  - apply (inv_handler_unresolved true s Hinv).
Qed.

Lemma initialize_entry :
  messageHandlers (run [EConnect true; EEndpoint "/message?session=1"]
                     (init "http://localhost:8080")) !! 1 = Some 0%nat.
Proof. vm_compute. reflexivity. Qed.

Lemma entries_and_timers_correspond_witness :
  let s := run [EConnect true; EEndpoint "/message?session=1"]
               (init "http://localhost:8080") in
  promises s !! 0%nat = None ∧ timeouts 1 s = 0%nat ∧
  send_failures 1 s = 0%nat.
Proof.
  exact (proj2 (entries_and_timers_correspond "http://localhost:8080"
                  [EConnect true; EEndpoint "/message?session=1"] 1 0%nat)
               initialize_entry).
Defined.

(** ** Session flag and timeouts *)

#[local] Instance stays_connected_preorder : PreOrder stays_connected.
Proof. split; unfold stays_connected; [by intros s|intros s1 s2 s3; auto]. Qed.

Lemma handle_stays_connected e :
  e ≠ EDisconnect → respects stays_connected (handle e).
Proof.
  destruct e; try done; intros _; simpl; steady; unfold stays_connected; by_cases.
Qed.

(** X21.  Only [disconnect()] lowers the session flag: a timeout, a
    failed send, an error Response, a stream error or a malformed message
    leaves a connected session connected. *)
Theorem connected_lowered_only_by_disconnect (es : list event) (s : world) :
  EDisconnect ∉ es →
  connected s = true →
  connected (run es s) = true.
Proof.
  revert s. induction es as [|e es IH]; intros s Hes Hc; [done|].
  simpl. apply IH.
  - intros Hin. apply Hes. by right.
  - apply handle_stays_connected; [|done]. intros ->. apply Hes. by left.
Qed.

Lemma no_disconnect_example :
  EDisconnect ∉ [ECallTool (VStr "add") VUndefined VUndefined 1700000000000;
                 ETimer 1%nat; ESent 1%nat (Some NetworkError); EStreamError;
                 EMessage None].
Proof. intros Hin. repeat (apply elem_of_cons in Hin as [?|Hin]; [done|]).
  by apply elem_of_nil in Hin. Qed.

Lemma connected_lowered_only_by_disconnect_witness :
  connected
    (run [ECallTool (VStr "add") VUndefined VUndefined 1700000000000;
          ETimer 1%nat; ESent 1%nat (Some NetworkError); EStreamError;
          EMessage None]
         (run handshake (init "http://localhost:8080"))) = true.
Proof.
  exact (connected_lowered_only_by_disconnect _ _ no_disconnect_example
           handshake_connected).
Defined.

#[local] Instance keeps_default_timeouts_preorder : PreOrder keeps_default_timeouts.
Proof.
  split; unfold keeps_default_timeouts; [by intros s|intros s1 s2 s3; auto].
Qed.

Lemma handle_keeps_default_timeouts e :
  respects keeps_default_timeouts (handle e).
Proof.
  destruct e; simpl; steady;
    unfold keeps_default_timeouts, default_timeouts; intros Hd k0 id0 ms0;
    simpl; repeat case_match; simpl;
    rewrite ?lookup_insert_Some, ?lookup_delete_Some;
    intros; destruct_and?; destruct_or?; destruct_and?; simplify_eq; eauto.
Qed.

(** X22.  Every request the client ever makes is given the default
    timeout: in a world reachable from a fresh client each armed timer was
    set for 30000 ms. *)
Theorem every_timer_is_thirty_seconds
    (url : string) (es : list event) (k : nat) (id ms : Z) :
  timers (run es (init url)) !! k = Some (id, ms) → ms = 30000.
Proof.
  assert (default_timeouts (run es (init url))) as H; [|by apply H].
  assert (H0 : default_timeouts (init url)).
  { intros k0 id0 ms0. simpl. by rewrite lookup_empty. }
  revert H0. generalize (init url). induction es as [|e es IH]; intros s Hs; [done|].
  simpl. apply IH. by apply handle_keeps_default_timeouts.
Qed.

Lemma every_timer_is_thirty_seconds_witness : 30000 = 30000.
Proof.
  exact (every_timer_is_thirty_seconds "http://localhost:8080"
           [EConnect true; EEndpoint "/message?session=1"] 0%nat 1 30000
           initialize_timer).
Defined.

(** ** Responses to pending requests *)

(** X23.  In a world reachable from a fresh client, a message carrying the
    id of a stored entry and a truthy [result] or [error] invokes that
    entry's completion callback once and cancels exactly its timer.  If
    the callback returns, it has settled the promise (rejected with the
    error's code and message when [error] is truthy, resolved with
    [result] otherwise) and exactly that entry is removed.  If the
    callback throws (the error's code or message cannot be converted to a
    string), the promise is left unsettled, the entry stays in the table
    and the message listener logs the exception.  In both cases every
    other entry and timer, and the session flag, are untouched. *)
Theorem response_settles_pending_call
    (url : string) (es : list event) (fields : list (string * value))
    (id : Z) (k : nat) :
  let s := run es (init url) in
  messageHandlers s !! id = Some k →
  field "id" fields = VNum id →
  truthy (field "result" fields) || truthy (field "error" fields) = true →
  let s' := step (EMessage (Some (VObj fields))) s in
  timers s' = delete k (timers s) ∧
  connected s' = connected s ∧
  (callback_throws (VObj fields) = false →
   log s' = log s ++ [Handler id k (VObj fields)] ∧
   promises s' !! k =
     Some (if truthy (field "error" fields)
           then Rejected (RpcError (prop (field "error" fields) "code")
                                   (prop (field "error" fields) "message"))
           else Resolved (field "result" fields)) ∧
   messageHandlers s' = delete id (messageHandlers s)) ∧
  (callback_throws (VObj fields) = true →
   log s' =
     log s ++
     [Handler id k (VObj fields); Console LError "Error parsing message:"] ∧
   promises s' = promises s ∧
   promises s' !! k = None ∧
   messageHandlers s' = messageHandlers s).
Proof.
  intros s Hk Hid Hre s'.
  assert (Hinv : inv true s) by (apply reachable_inv; by exists url, es).
  destruct (inv_handler_unresolved true s Hinv _ _ Hk) as (Hp & _).
  assert (1 ≤ id) as Hpos.
  { apply (stored_id_positive url es id k). by apply (inv_handler_stored true s Hinv). }
  destruct (callback_throws (VObj fields)) eqn:Ec.
  - assert (Hs' : s' =
              set_log
                (log s ++ [Handler id k (VObj fields);
                           Console LError "Error parsing message:"])
                (set_timers (delete k (timers s)) s)).
    { unfold s', step, handle, onMessage, catch.
      rewrite (response_aborts fields s id k) by (done || lia).
      unfold console, tell, modify, aborted. simpl. by rewrite <- app_assoc. }
    rewrite Hs'. simpl. split_and!; try done.
  - assert (Hs' : s' = completed id k (VObj fields) s)
      by (apply step_message_response; [done|lia|done..]).
    rewrite Hs'. unfold completed, settle, modify. simpl. rewrite Hp. simpl.
    split_and!; try done. intros _. split_and!; try done.
    by rewrite lookup_insert_eq.
Qed.

Lemma response_settles_pending_call_witness :
  let s := run [EConnect true; EEndpoint "/message?session=1"]
               (init "http://localhost:8080") in
  let fields :=
    [("jsonrpc", VStr "2.0"); ("id", VNum 1);
     ("error", VObj [("code", VNum (-32602)); ("message", VStr "Invalid params")])] in
  let s' := step (EMessage (Some (VObj fields))) s in
  log s' = log s ++ [Handler 1 0%nat (VObj fields)] ∧
  promises s' !! 0%nat =
    Some (Rejected (RpcError (VNum (-32602)) (VStr "Invalid params"))) ∧
  messageHandlers s' = delete 1 (messageHandlers s).
Proof.
  exact (proj1 (proj2 (proj2
           (response_settles_pending_call "http://localhost:8080"
              [EConnect true; EEndpoint "/message?session=1"]
              [("jsonrpc", VStr "2.0"); ("id", VNum 1);
               ("error", VObj [("code", VNum (-32602));
                               ("message", VStr "Invalid params")])]
              1 0%nat initialize_entry eq_refl eq_refl))) eq_refl).
Defined.

(** An error whose code is an object with an own [toString] property, sent
    twice for the pending initialize request: both copies invoke the
    completion callback, which throws each time; the entry stays, its
    timer is cancelled and the promise is never settled. *)
Lemma unprintable_error_leaves_request_stuck :
  let response :=
    VObj [("jsonrpc", VStr "2.0"); ("id", VNum 1);
          ("error", VObj [("code", VObj [("toString", VNum 1)]);
                          ("message", VStr "failed")])] in
  let s :=
    run [EConnect true; EEndpoint "/message?session=1";
         EMessage (Some response); EMessage (Some response)]
        (init "http://localhost:8080") in
  completions 1 s = 2%nat ∧ timeouts 1 s = 0%nat ∧
  messageHandlers s !! 1 = Some 0%nat ∧
  timers s !! 0%nat = None ∧
  promises s !! 0%nat = None.
Proof. split_and!; vm_compute; reflexivity. Qed.

Lemma ping_with_truthy_id_is_answered_witness :
  handleIncomingMessage
    (VObj [("jsonrpc", VStr "2.0"); ("id", VNum 5); ("method", VStr "ping")])
    (init "http://localhost:8080")
  = (set_log
       [Fetch "http://localhost:8080/message"
          (VObj [("jsonrpc", VStr "2.0"); ("id", VNum 5); ("result", VObj [])])]
       (init "http://localhost:8080"),
     Normal tt).
Proof.
  exact (ping_with_truthy_id_is_answered
           [("jsonrpc", VStr "2.0"); ("id", VNum 5); ("method", VStr "ping")]
           (init "http://localhost:8080") eq_refl eq_refl eq_refl eq_refl).
Defined.

(** ** Exceptions *)

Lemma harmless_completes (message : value) :
  harmless message = true → completes message = true.
Proof.
  induction message as [v Hv | elems IH] using value_array_ind.
  - destruct v as [| |b|n|t|l|fields]; try done. simpl.
    destruct (truthy (field "method" fields)),
      (truthy (field "id" fields)); simpl; try done.
    by intros [-> _]%andb_true_iff.
  - simpl. induction IH as [|x rest Hx _ IHrest]; [done|]. simpl.
    intros [H1 H2]%andb_true_iff. by rewrite Hx, IHrest.
Qed.

(** X24.  Which messages [handleIncomingMessage] handles to the end,
    whatever the state of the client.  It never returns on a message that
    does not satisfy [completes]: null, a notification for
    [notifications/resources/updated], [notifications/progress] or
    [notifications/message] whose params are null or missing, or an array
    with such an element at any depth.  It always returns on a [harmless]
    message: one that satisfies [completes] and has a convertible value
    wherever the code builds a string from it.  Between the two lie the
    messages with a value that cannot be converted, on which the outcome
    depends on the branch taken and, for a Response, on the table. *)
Theorem handling_returns_or_throws_by_shape (message : value) (s : world) :
  (harmless message = true → snd (handleIncomingMessage message s) = Normal tt) ∧
  (completes message = false →
   ∃ e, snd (handleIncomingMessage message s) = Throw e) ∧
  (harmless message = true → completes message = true).
Proof.
  split_and!.
  - intros H. by apply harmless_returns.
  - intros H. by apply not_completes_throws.
  - apply harmless_completes.
Qed.

Lemma handling_returns_or_throws_by_shape_witness :
  snd (handleIncomingMessage (VArr exampleBatch) initializing) = Normal tt ∧
  ∃ e,
    snd (handleIncomingMessage (VArr [VArr [progressWithoutParams]]) initializing)
    = Throw e.
Proof.
  exact (conj
    (proj1 (handling_returns_or_throws_by_shape
              (VArr exampleBatch) initializing) eq_refl)
    (proj1 (proj2 (handling_returns_or_throws_by_shape
              (VArr [VArr [progressWithoutParams]]) initializing)) eq_refl)).
Defined.

(** ** After disconnect *)

(** X25.  [disconnect()] on a client with an open stream closes it and
    lowers the session flag, but cancels nothing: the correlation table,
    the timers and the promises are as before.  From the world it leaves,
    and through any later events among which no continuation of an
    awaited request runs (the continuation of [initialize] is the one
    place that raises the flag again), the session stays not connected,
    and [listTools()] and [callTool()] are rejected with the "not
    connected" error and send nothing. *)
Theorem operations_are_rejected_after_disconnect
    (s : world) (es : list event) (name args withProgress : value) (now : Z) :
  is_Some (eventSource s) →
  forallb (λ e, negb (is_resume_event e)) es = true →
  let s1 := step EDisconnect s in
  let s2 := run es s1 in
  connected s1 = false ∧
  messageHandlers s1 = messageHandlers s ∧
  timers s1 = timers s ∧
  promises s1 = promises s ∧
  connected s2 = false ∧
  step EListTools s2 =
    set_log (log s2 ++ [Settle OListTools (Rejected NotConnected)]) s2 ∧
  step (ECallTool name args withProgress now) s2 =
    set_log (log s2 ++ [Settle OCallTool (Rejected NotConnected)]) s2.
Proof.
  intros [u Hu] Hes s1 s2.
  assert (Hs1 : s1 =
            set_log
              (log s ++
               [CloseStream; Console LLog "Disconnected from MCP server"] ++
               map (λ cb, Call cb (PVal VUndefined))
                   (default [] (eventListeners s !! "disconnect")))
              (set_connected false (set_eventSource None s))).
  { unfold s1, step, handle, disconnect. unfold_m. simpl. rewrite Hu. simpl.
    destruct (eventListeners s !! "disconnect"); simpl;
      by rewrite <- ?app_assoc, ?app_nil_r. }
  assert (Hc1 : connected s1 = false) by (by rewrite Hs1).
  assert (Hrun : ∀ w, connected w = false → connected (run es w) = false).
  { clear -Hes. induction es as [|e es IH]; intros w Hw; [done|].
    simpl in Hes. apply andb_true_iff in Hes as [He Hes]. simpl.
    apply IH; [done|].
    destruct (connected (flip step w e)) eqn:E; [|done].
    assert (connected w = true); [|congruence].
    apply (handle_not_connecting e); [|exact E].
    intros k ->. done. }
  assert (Hc : connected s2 = false) by (by apply Hrun).
  split_and!; [by rewrite Hs1..|done| |].
  - unfold step, handle, async, listTools. unfold_m. by rewrite Hc.
  - unfold step, handle, async, callTool. unfold_m. by rewrite Hc.
Qed.

Lemma stream_open_after_handshake :
  is_Some (eventSource (run handshake (init "http://localhost:8080"))).
Proof. eexists. vm_compute. reflexivity. Qed.

Lemma operations_are_rejected_after_disconnect_witness :
  let s1 := step EDisconnect (run handshake (init "http://localhost:8080")) in
  let s2 :=
    run [EMessage (Some progressNotification); EStreamError; EConnect true] s1 in
  connected s2 = false ∧
  step EListTools s2 =
    set_log (log s2 ++ [Settle OListTools (Rejected NotConnected)]) s2.
Proof.
  destruct (operations_are_rejected_after_disconnect
              (run handshake (init "http://localhost:8080"))
              [EMessage (Some progressNotification); EStreamError; EConnect true]
              VNull VNull VNull 0 stream_open_after_handshake eq_refl)
    as (_ & _ & _ & _ & H5 & H6 & _).
  exact (conj H5 H6).
Defined.
